(** * Verification of the reddit-tfidf Spark driver (processing/spark/driver.py)

    The driver parses its options, builds a Spark ML pipeline, extracts for
    every subreddit the [nwords] words of greatest tf-idf, drops a fixed set
    of working columns and saves the result as a Hive table whose name is
    derived from the input path.

    The embedding below follows driver.py definition by definition.  Library
    calls (numpy's [argsort], Python slicing, [os.path], [str.translate],
    [argparse], the DataFrame writer) are modelled by small executable
    functions that follow the documented behaviour of those calls. *)

From Stdlib Require Import ZArith QArith String Ascii.
From stdpp Require Import base numbers option list sorting strings gmap.

Local Open Scope Z_scope.
Local Open Scope nat_scope.

(** ** Python sequence operations used by the driver *)

(** [l[start:]] for a Python sequence: a negative [start] counts from the
    end, and both directions are clamped to the bounds of [l]. *)
Definition slice_from {X : Type} (start : Z) (l : list X) : list X :=
  let n := Z.of_nat (length l) in
  let lo := if decide (start < 0)%Z then Z.max (n + start) 0
            else Z.min start n in
  drop (Z.to_nat lo) l.

(** [l[::-1]] *)
Definition slice_reversed {X : Type} (l : list X) : list X := reverse l.

(** ** The per-row function of [TopKWords.transform] *)

Section top_k_words.
(** Scores are the entries of the dense tf-idf array.  Only their order
    is used by the driver, so the score type is kept abstract: [R x y]
    reads "x <= y". *)
Context {A : Type} (R : relation A) `{!∀ x y, Decision (R x y)}.

(** One step of the insertion sort on (index, value) pairs: the new pair
    moves in front of exactly the pairs whose value is strictly greater,
    so pairs of equal value keep the order of their indices. *)
Fixpoint sort_insert (p : nat * A) (l : list (nat * A)) : list (nat * A) :=
  match l with
  | [] => [p]
  | q :: l' =>
      if decide (R q.2 p.2) then q :: sort_insert p l' else p :: q :: l'
  end.

Definition enumerate (a : list A) : list (nat * A) :=
  zip (seq 0 (length a)) a.

Definition sorted_pairs (a : list A) : list (nat * A) :=
  fold_left (λ acc p, sort_insert p acc) (enumerate a) [].

(** [a.argsort()]: the indices of [a] in ascending order of value.  The
    model is the insertion sort that numpy runs on arrays of at most 16
    entries, which leaves equal values in the order of their indices.  On
    longer arrays numpy's default sort promises no order among equal
    values, and the model is faithful up to that order only: no property
    stated below says anything about the order among equal scores. *)
Definition argsort (a : list A) : list nat := (sorted_pairs a).*1.

(** The (index, score) pairs behind the selected indices. *)
Definition top_pairs (tfidfs : list A) (k : Z) : list (nat * A) :=
  slice_reversed (slice_from (- k) (sorted_pairs tfidfs)).

(** [indices = tfidfs.argsort()[-k:][::-1]] *)
Definition top_indices (tfidfs : list A) (k : Z) : list nat :=
  slice_reversed (slice_from (- k) (argsort tfidfs)).

(** [getTopKWords(x, k)], with [x.toArray()] given as the list [x] and the
    vocabulary captured by the closure passed as [vocab].  An index out
    of range (IndexError) is [None]. *)
Definition getTopKWords (vocab : list string) (x : list A) (k : Z)
  : option (list A * list string) :=
  let tfidfs := x in
  let indices := top_indices tfidfs k in
  scores ← mapM (λ i, tfidfs !! i) indices;
  words ← mapM (λ i, vocab !! i) indices;
  Some (scores, words).
End top_k_words.

(** ** The [TopKWords] stage object *)

Record TopKWords := {
  inputCol : option string;
  outputCol : option string;
  key : option string;
  val : option string;
  nwords : Z
}.

(** [TopKWords.__init__]: the five attributes are stored as given; the body
    contains no check and no [raise]. *)
Definition TopKWords_init (key0 val0 inputCol0 outputCol0 : option string)
    (nwords0 : Z) : TopKWords :=
  {| inputCol := inputCol0; outputCol := outputCol0;
     key := key0; val := val0; nwords := nwords0 |}.

Definition getOutputCol (t : TopKWords) : option string := outputCol t.
Definition getinputCol (t : TopKWords) : option string := inputCol t.

(** ** Command line options *)

Inductive ArgType := TStr | TInt | TFloat.

(** A value after the [type=] conversion of argparse. *)
Inductive ArgValue :=
  | VNone
  | VStr (s : string)
  | VInt (z : Z)
  | VFloat (q : Q).

Definition has_type (ty : ArgType) (v : ArgValue) : bool :=
  match ty, v with
  | TStr, VStr _ | TInt, VInt _ | TFloat, VFloat _ => true
  | _, _ => false
  end.

Record Argument := {
  arg_flag : string;
  arg_dest : string;
  arg_type : ArgType;
  arg_default : ArgValue
}.

(** The six [parser.add_argument] calls, in order. *)
Definition parser : list Argument := [
  {| arg_flag := "--filepath"; arg_dest := "filepath";
     arg_type := TStr; arg_default := VNone |};
  {| arg_flag := "--minlength"; arg_dest := "minlength";
     arg_type := TInt; arg_default := VInt 50000 |};
  {| arg_flag := "--nwords"; arg_dest := "nwords";
     arg_type := TInt; arg_default := VInt 10 |};
  {| arg_flag := "--nsubreddits"; arg_dest := "nsubreddits";
     arg_type := TInt; arg_default := VInt 10 |};
  {| arg_flag := "--mindf"; arg_dest := "mindf";
     arg_type := TFloat; arg_default := VFloat 1 |};
  {| arg_flag := "--vocabsize"; arg_dest := "vocabsize";
     arg_type := TInt; arg_default := VInt 20000 |}
]%string.

(** The namespace starts with every destination bound to its default. *)
Definition defaults (ps : list Argument) : gmap string ArgValue :=
  fold_left (λ ns a, <[arg_dest a := arg_default a]> ns) ps ∅.

(** The argument a flag stands for.  Flags are taken as written in full:
    argparse also accepts an unambiguous prefix of a flag, which is read
    here as already expanded to the flag it abbreviates. *)
Definition find_argument (ps : list Argument) (flag : string)
  : option Argument :=
  list_find (λ a, arg_flag a = flag) ps ≫= λ r, Some r.2.

(** One supplied option: an unknown flag or a value that does not convert
    is an error ([None]); otherwise the destination is rebound. *)
Definition store_option (ps : list Argument) (ns : gmap string ArgValue)
    (o : string * ArgValue) : option (gmap string ArgValue) :=
  a ← find_argument ps o.1;
  if has_type (arg_type a) o.2 then Some (<[arg_dest a := o.2]> ns) else None.

Fixpoint store_options (ps : list Argument) (ns : gmap string ArgValue)
    (argv : list (string * ArgValue)) : option (gmap string ArgValue) :=
  match argv with
  | [] => Some ns
  | o :: argv' => ns' ← store_option ps ns o; store_options ps ns' argv'
  end.

(** [parser.parse_args()] on the supplied (flag, value) pairs. *)
Definition parse_args (argv : list (string * ArgValue))
  : option (gmap string ArgValue) :=
  store_options parser (defaults parser) argv.

(** [topkwords = TopKWords(inputCol=idf.getOutputCol(),
    outputCol='top_words', nwords=args.nwords)] *)
Definition make_topkwords (args : gmap string ArgValue) : option TopKWords :=
  match args !! "nwords"%string with
  | Some (VInt n) =>
      Some (TopKWords_init None None (Some "tfidf") (Some "top_words") n)%string
  | _ => None
  end.

(** The argument of [spark.read.json]: [args.filepath + '.txt'].  The
    default of [--filepath] is [None], and adding a string to [None] is a
    TypeError. *)
Definition input_file (args : gmap string ArgValue) : option string :=
  match args !! "filepath"%string with
  | Some (VStr s) => Some (s ++ ".txt")%string
  | _ => None
  end.

(** ** Path and string functions *)

Local Open Scope string_scope.

(** [s.rfind(c)]: the highest index at which [c] occurs, or -1. *)
Fixpoint rfind_from (c : ascii) (s : string) (i found : Z) : Z :=
  match s with
  | EmptyString => found
  | String d s' =>
      rfind_from c s' (i + 1)%Z (if Ascii.eqb d c then i else found)
  end.

Definition rfind (c : ascii) (s : string) : Z := rfind_from c s 0%Z (-1)%Z.

(** [posixpath.basename(p)]: [i = p.rfind('/') + 1; return p[i:]] *)
Definition basename (p : string) : string :=
  let i := Z.to_nat (rfind "/" p + 1) in
  substring i (String.length p - i) p.

(** [s.split(sep)] for a one-character separator. *)
Fixpoint split (sep : ascii) (s : string) : list string :=
  match s with
  | EmptyString => [EmptyString]
  | String c s' =>
      if Ascii.eqb c sep then EmptyString :: split sep s'
      else match split sep s' with
           | w :: ws => String c w :: ws
           | [] => [String c EmptyString]
           end
  end.

(** The body of the loop over the components in [posixpath.normpath]. *)
Definition normpath_step (initial_slashes : nat) (new_comps : list string)
    (comp : string) : list string :=
  if decide (comp = "" ∨ comp = ".") then new_comps
  else if decide (comp ≠ ".."
                  ∨ (initial_slashes = 0 ∧ new_comps = [])
                  ∨ (new_comps ≠ [] ∧ last new_comps = Some ".."))
  then new_comps ++ [comp]
  else if decide (new_comps ≠ []) then removelast new_comps
  else new_comps.

(** [posixpath.normpath(path)] *)
Definition normpath (path : string) : string :=
  if decide (path = "") then "." else
  let initial_slashes :=
    if String.prefix "/" path then
      if String.prefix "//" path && negb (String.prefix "///" path)
      then 2 else 1
    else 0 in
  let comps := split "/" path in
  let new_comps := fold_left (normpath_step initial_slashes) comps [] in
  let joined := String.concat "/" new_comps in
  let path' :=
    match initial_slashes with
    | 0 => joined
    | 1 => "/" ++ joined
    | _ => "//" ++ joined
    end in
  if decide (path' = "") then "." else path'.

(** [str.maketrans(x, y, z)]: characters of [x] map to those of [y],
    characters of [z] map to [None]. *)
Definition maketrans (x y z : string) : gmap ascii (option ascii) :=
  let pairs := zip (list_ascii_of_string x) (list_ascii_of_string y) in
  let t := fold_left (λ t p, <[p.1 := Some p.2]> t) pairs ∅ in
  fold_left (λ t c, <[c := None]> t) (list_ascii_of_string z) t.

(** [s.translate(table)]: a character bound to [None] is deleted, a
    character bound to another one is replaced, the others are kept. *)
Fixpoint translate (table : gmap ascii (option ascii)) (s : string) : string :=
  match s with
  | EmptyString => EmptyString
  | String c s' =>
      match table !! c with
      | None => String c (translate table s')
      | Some None => translate table s'
      | Some (Some d) => String d (translate table s')
      end
  end.

Definition trans_table : gmap ascii (option ascii) := maketrans "" "" "-_".

(** The argument of [saveAsTable]:
    [basename(normpath(args.filepath)).translate(trans_table)] *)
Definition table_name (filepath : string) : string :=
  let filename := basename (normpath filepath) in
  translate trans_table filename.

(** The wording of the specification for the same name: the characters '-'
    and '_' are deleted. *)
Fixpoint delete_hyphens_underscores (s : string) : string :=
  match s with
  | EmptyString => EmptyString
  | String c s' =>
      if Ascii.eqb c "-" || Ascii.eqb c "_"
      then delete_hyphens_underscores s'
      else String c (delete_hyphens_underscores s')
  end.

(** ** DataFrames *)

(** The cells that occur in the driver's columns.  A DataFrame is lazy:
    [CRaises] is a cell whose evaluation raises once an action runs. *)
Inductive Cell (A : Type) :=
  | CNull
  | CString (s : string)
  | CNumber (z : Z)
  | CTokens (ws : list string)
  | CVector (v : list A)
  | CTopWords (tfidfs : list A) (words : list string)
  | CRaises.
Arguments CNull {A}.
Arguments CString {A} s.
Arguments CNumber {A} z.
Arguments CTokens {A} ws.
Arguments CVector {A} v.
Arguments CTopWords {A} tfidfs words.
Arguments CRaises {A}.

(** A DataFrame, column by column: the columns are ordered and a name may
    occur more than once. *)
Definition DataFrame (A : Type) : Type := list (string * list (Cell A)).

Definition ascii_lower (c : ascii) : ascii :=
  let n := nat_of_ascii c in
  if (65 <=? n)%nat && (n <=? 90)%nat then ascii_of_nat (n + 32) else c.

Fixpoint string_lower (s : string) : string :=
  match s with
  | EmptyString => EmptyString
  | String c s' => String (ascii_lower c) (string_lower s')
  end.

(** The session's resolver of column names: exact comparison when
    [spark.sql.caseSensitive] is set, comparison up to case otherwise. *)
Definition resolver (caseSensitive : bool) (a b : string) : bool :=
  if caseSensitive then String.eqb a b
  else String.eqb (string_lower a) (string_lower b).

(** [df.drop] on a list of names: a column stays iff no given name resolves to it. *)
Definition drop_columns {A : Type} (cs : bool) (colNames : list string)
    (df : DataFrame A) : DataFrame A :=
  List.filter (λ c, forallb (λ n, negb (resolver cs c.1 n)) colNames) df.

(** [col(name)] read in [df]: the name must resolve to exactly one column. *)
Definition resolve_col {A : Type} (cs : bool) (name : string)
    (df : DataFrame A) : option (list (Cell A)) :=
  match List.filter (λ c, resolver cs c.1 name) df with
  | [c] => Some c.2
  | _ => None
  end.

(** [df.withColumn(name, data)]: columns of that name are replaced in
    place, otherwise the new column is added at the end. *)
Definition withColumn {A : Type} (cs : bool) (name : string)
    (data : list (Cell A)) (df : DataFrame A) : DataFrame A :=
  if existsb (λ c, resolver cs c.1 name) df
  then (λ c, if resolver cs c.1 name then (name, data) else c) <$> df
  else (df ++ [(name, data)])%list.

Section transform.
Context {A : Type} (R : relation A) `{!∀ x y, Decision (R x y)}.
(** [words_schema] declares the scores as [ArrayType(FloatType())]: each
    score is narrowed to a 32-bit float when the cell is stored. *)
Context (narrow : A → A).

(** [topkwords_udf = udf(lambda x: getTopKWords(x, k=self.nwords),
    words_schema)] evaluated on one cell of the 'tfidf' column; [None] when
    the evaluation raises. *)
Definition topkwords_udf (vocab : list string) (self : TopKWords)
    (c : Cell A) : option (Cell A) :=
  match c with
  | CVector x =>
      r ← getTopKWords R vocab x (nwords self);
      Some (CTopWords (narrow <$> r.1) r.2)
  | _ => None
  end.

(** [TopKWords.transform(df)]:
    [df.withColumn('top_words', topkwords_udf(col('tfidf')))].  The column
    name is resolved at once, and the call fails if it does not resolve;
    the udf itself is not run by the call: the new column holds, row by
    row, the cell that the udf gives when an action evaluates it, and
    [CRaises] where it raises. *)
Definition TopKWords_transform (cs : bool) (vocab : list string)
    (self : TopKWords) (df : DataFrame A) : option (DataFrame A) :=
  x ← resolve_col cs "tfidf" df;
  let data := (λ c, default CRaises (topkwords_udf vocab self c)) <$> x in
  Some (withColumn cs "top_words" data df).
End transform.

(** ** Saving the result *)

Inductive SaveMode := Append | Overwrite | ErrorIfExists | Ignore.

(** [DataFrameWriter.mode(saveMode)] *)
Definition mode (saveMode : string) : option SaveMode :=
  let m := string_lower saveMode in
  if String.eqb m "overwrite" then Some Overwrite
  else if String.eqb m "append" then Some Append
  else if String.eqb m "ignore" then Some Ignore
  else if String.eqb m "error" || String.eqb m "errorifexists"
          || String.eqb m "default" then Some ErrorIfExists
  else None.

(** Appending the rows of [df] to a table of the same columns. *)
Fixpoint append_rows {A : Type} (t df : DataFrame A) : option (DataFrame A) :=
  match t, df with
  | [], [] => Some []
  | (n, d) :: t', (n', d') :: df' =>
      if String.eqb n n'
      then r ← append_rows t' df'; Some ((n, (d ++ d')%list) :: r)
      else None
  | _, _ => None
  end.

(** An action evaluates every cell of the DataFrame it runs on. *)
Definition cell_raises {A : Type} (c : Cell A) : bool :=
  match c with
  | CRaises => true
  | _ => false
  end.

Definition raises {A : Type} (df : DataFrame A) : bool :=
  existsb (λ c, existsb cell_raises c.2) df.

Definition dropped_columns : list string :=
  ["body"; "cleaned"; "tf"; "tokens"; "swr_tokens"; "norm"].

(** [df = df.drop('body', 'cleaned', 'tf', 'tokens', 'swr_tokens', 'norm')]
    on the DataFrame returned by [model.transform(df)]. *)
Definition final_df {A : Type} (cs : bool) (transformed : DataFrame A)
  : DataFrame A :=
  drop_columns cs dropped_columns transformed.

Section saving.
Context {A : Type}.
(** Spark parses the name given to [saveAsTable] as a table identifier and
    fails on a name that is not one ('201501', '.', the empty name).  Which
    names it accepts is the parameter [valid_table_name]. *)
Context (valid_table_name : string → bool).

(** [df.write.mode(m).saveAsTable(name)] on a store of tables.  The write
    is an action: it fails if a cell of [df] raises.  Hive keeps table
    names in lower case, so the store is keyed by the lower-cased name. *)
Definition saveAsTable (m : SaveMode) (name : string)
    (df : DataFrame A) (store : gmap string (DataFrame A))
  : option (gmap string (DataFrame A)) :=
  if negb (valid_table_name name) then None
  else if raises df then None
  else
    let key := string_lower name in
    match store !! key with
    | None => Some (<[key := df]> store)
    | Some t =>
        match m with
        | Overwrite => Some (<[key := df]> store)
        | Append => t' ← append_rows t df; Some (<[key := t']> store)
        | ErrorIfExists => None
        | Ignore => Some store
        end
    end.

(** The last four lines of the driver. *)
Definition save_results (cs : bool) (filepath : string)
    (transformed : DataFrame A) (store : gmap string (DataFrame A))
  : option (gmap string (DataFrame A)) :=
  let df := final_df cs transformed in
  m ← mode "overwrite";
  saveAsTable m (table_name filepath) df store.
End saving.

(** ** The vocabulary and the vectors that reach the stage *)

(** The fitted stages of [model.stages], as far as the driver tells them
    apart: the [isinstance(s, CountVectorizerModel)] test of line 108. *)
Inductive FittedStage :=
  | CountVectorizerModel (vocabulary : list string)
  | OtherStage (name : string).

(** [vectorizers = [s for s in stages if isinstance(s, CountVectorizerModel)]] *)
Definition vectorizers (stages : list FittedStage) : list FittedStage :=
  List.filter (λ s, match s with CountVectorizerModel _ => true
                             | OtherStage _ => false end) stages.

(** [vocab = vectorizers[0].vocabulary]; an empty list of vectorizers is an
    IndexError. *)
Definition captured_vocab (stages : list FittedStage) : option (list string) :=
  match vectorizers stages with
  | CountVectorizerModel v :: _ => Some v
  | _ => None
  end.

Section vocabulary_builder.
Context {A : Type}.

(** Modelled from the spec: the number of occurrences of a term in the
    corpus, by which section 4.6 ranks the terms ("most frequent").
    CountVectorizer is Spark's and not part of the repository. *)
Definition term_frequency (docs : list (list string)) (t : string) : nat :=
  sum_list ((λ d, length (filter (λ u, u = t) d)) <$> docs).

(** Modelled from the spec: the document frequency of section 4.6, the
    "count of documents containing the term". *)
Definition document_frequency (docs : list (list string)) (t : string) : nat :=
  length (filter (λ d, t ∈ d) docs).

(** Modelled from the spec: the [mindf] test of section 4.6, "count of
    documents containing the term >= mindf, where mindf may be given as an
    absolute count or a fraction of total documents"; a value of at least 1
    is read as a count, a smaller one as a fraction. *)
Definition meets_mindf (mindf : Q) (ndocs df : nat) : bool :=
  if Qle_bool 1 mindf then Qle_bool mindf (inject_Z (Z.of_nat df))
  else Qle_bool (mindf * inject_Z (Z.of_nat ndocs)) (inject_Z (Z.of_nat df)).

(** Modelled from the spec: the order in which section 4.6 ranks the
    terms, by frequency, "when two terms tie on frequency, resolve by
    lexicographic order of the term string". *)
Definition frequent_first (docs : list (list string)) (t u : string) : Prop :=
  term_frequency docs u < term_frequency docs t
  ∨ (term_frequency docs t = term_frequency docs u ∧ String.leb t u = true).

(** Modelled from the spec: the vocabulary of section 4.6 (a), "the top
    vocabsize most frequent distinct terms satisfying mindf". *)
Definition build_vocabulary (mindf : Q) (vocabsize : Z)
    (docs : list (list string)) : list string :=
  let terms := remove_dups (concat docs) in
  let kept :=
    filter (λ t, meets_mindf mindf (length docs) (document_frequency docs t)
                 = true) terms in
  take (Z.to_nat vocabsize) (merge_sort (frequent_first docs) kept).

(** The index of a term in the vocabulary. *)
Definition term_index (vocab : list string) (t : string) : option nat :=
  fst <$> list_find (λ u, u = t) vocab.

(** Modelled from the spec: the TermVector of sections 3 and 4.6 (b), a
    "sparse mapping from vocabulary index to a non-negative weight", here
    the "raw term counts indexed into that vocabulary, ignoring tokens not
    in the vocabulary". *)
Definition term_vector (vocab : list string) (doc : list string)
  : gmap nat nat :=
  fold_left (λ tv t,
               match term_index vocab t with
               | Some i => <[i := S (default 0 (tv !! i))]> tv
               | None => tv
               end) doc ∅.

(** Modelled from the spec: the number of documents "whose TermVector has
    a non-zero count" at an index (section 4.7). *)
Definition index_document_frequency (tvs : list (gmap nat nat)) (i : nat)
  : nat :=
  length (filter (λ tv : gmap nat nat, is_Some (tv !! i)) tvs).

(** The arithmetic of section 4.7 is on real numbers: [idf_weight N df]
    stands for ln((N + 1) / (df + 1)) + 1 and [times tf w] for tf * w. *)
Context (idf_weight : nat → nat → A) (times : nat → A → A).

(** Modelled from the spec: the TF-IDF vector of section 4.7,
    "tfidf(t, d) = tf(t, d) * idf(t)", "dense over the vocabulary size
    (zero entries are explicit)". *)
Definition tfidf_vector (vocab : list string) (tvs : list (gmap nat nat))
    (tv : gmap nat nat) : list A :=
  (λ i, times (default 0 (tv !! i))
          (idf_weight (length tvs) (index_document_frequency tvs i)))
    <$> seq 0 (length vocab).
End vocabulary_builder.

(** Modelled from the spec: the stages of section 2 in their order, as
    [model.stages] holds them after [pipeline.fit]: the pipeline of line
    102 with the CountVectorizer replaced by its fitted model, which
    carries the vocabulary. *)
Definition fitted_stages (vocabulary : list string) : list FittedStage :=
  [OtherStage "extractor"; OtherStage "cleaner"; OtherStage "filterer";
   OtherStage "tokenizer"; OtherStage "remover";
   CountVectorizerModel vocabulary; OtherStage "idf";
   OtherStage "topkwords"; OtherStage "cos_similarity";
   OtherStage "topksubreddits"].

(** ** Predicates used to state the results *)

Section ranking.
Context {A : Type} (R : relation A).

(** [by_score p q]: the score of the pair [p] is at most that of [q]. *)
Definition by_score (p q : nat * A) : Prop := R p.2 q.2.

(** [score_at_least a i j]: in the array [a], the score of index [i] is at
    least that of index [j]. *)
Definition score_at_least (a : list A) (i j : nat) : Prop :=
  ∃ si sj, a !! i = Some si ∧ a !! j = Some sj ∧ R sj si.

(** The tie rule as the specification words it: of two indices of equal
    score, the lower one is selected whenever the higher one is, and
    stands before it. *)
Definition lower_index_first (a : list A) (selected : list nat) : Prop :=
  ∀ i j si sj, i < j → a !! i = Some si → a !! j = Some sj →
    R si sj → R sj si → j ∈ selected →
    ∃ pi pj, selected !! pi = Some i ∧ selected !! pj = Some j ∧ pi < pj.
End ranking.

(** * Properties *)

Local Open Scope nat_scope.

(** ** Slicing *)

Lemma slice_from_fmap {X Y : Type} (f : X → Y) (start : Z) (l : list X) :
  f <$> slice_from start l = slice_from start (f <$> l).
Proof. unfold slice_from. by rewrite fmap_drop, length_fmap. Qed.

Lemma slice_from_suffix {X : Type} (start : Z) (l : list X) :
  ∃ pre, l = (pre ++ slice_from start l)%list.
Proof.
  unfold slice_from. eexists. symmetry. apply take_drop.
Qed.

Lemma slice_from_neg_length {X : Type} (k : Z) (l : list X) :
  (0 < k)%Z → length (slice_from (- k) l) = Z.to_nat k `min` length l.
Proof.
  intros Hk. unfold slice_from. rewrite length_drop.
  destruct (decide (- k < 0)%Z); lia.
Qed.

Lemma slice_from_zero {X : Type} (l : list X) : slice_from (- 0) l = l.
Proof. unfold slice_from. simpl. by rewrite Z.min_l by lia. Qed.

Lemma StronglySorted_reverse_flip {X : Type} (S : relation X) (l : list X) :
  StronglySorted S (reverse l) → StronglySorted (flip S) l.
Proof.
  induction l as [|p l IH]; intros Hs; [constructor|].
  rewrite reverse_cons in Hs.
  apply StronglySorted_app in Hs as (Hall & Hl & _).
  constructor; [by apply IH|].
  apply Forall_forall. intros q Hq. apply Hall; [|set_solver].
  by apply elem_of_reverse.
Qed.

(** ** The index sort *)

Section sorting.
Context {A : Type} (R : relation A) `{!∀ x y, Decision (R x y)}.
Context `{!Total R, !Transitive R}.

Lemma sort_insert_perm (p : nat * A) l : sort_insert R p l ≡ₚ p :: l.
Proof.
  induction l as [|q l IH]; simpl; [done|].
  case_decide; [|done]. rewrite IH. apply Permutation_swap.
Qed.

Lemma sort_insert_sorted (p : nat * A) l :
  StronglySorted (by_score R) l →
  StronglySorted (by_score R) (sort_insert R p l).
Proof.
  induction 1 as [|q l Hl IH Hq]; simpl.
  { repeat constructor. }
  case_decide as Hdec.
  - constructor; [done|].
    rewrite sort_insert_perm. by constructor.
  - assert (R p.2 q.2) as Hpq by (by destruct (total R p.2 q.2)).
    constructor; [by constructor|].
    constructor; [done|].
    eapply Forall_impl; [exact Hq|]. intros r Hr.
    unfold by_score in *. by etrans.
Qed.

Lemma fold_insert_perm (ps acc : list (nat * A)) :
  fold_left (λ acc p, sort_insert R p acc) ps acc ≡ₚ (acc ++ ps)%list.
Proof.
  revert acc. induction ps as [|p ps IH]; intros acc; simpl.
  - by rewrite app_nil_r.
  - rewrite IH, sort_insert_perm. simpl. apply Permutation_middle.
Qed.

Lemma fold_insert_sorted (ps acc : list (nat * A)) :
  StronglySorted (by_score R) acc →
  StronglySorted (by_score R)
    (fold_left (λ acc p, sort_insert R p acc) ps acc).
Proof.
  revert acc. induction ps as [|p ps IH]; intros acc Hs; simpl; [done|].
  by apply IH, sort_insert_sorted.
Qed.
End sorting.

(** ** Enumerated arrays *)

Section enumerate_facts.
Context {A : Type}.

Lemma enumerate_from_lookup (s : nat) (a : list A) (j : nat) :
  zip (seq s (length a)) a !! j = (λ x, (s + j, x)) <$> a !! j.
Proof.
  revert s j. induction a as [|x a IH]; intros s j; simpl; [done|].
  destruct j as [|j]; simpl.
  - by rewrite Nat.add_0_r.
  - rewrite IH. by replace (S s + j) with (s + S j) by lia.
Qed.

Lemma elem_of_enumerate (a : list A) (i : nat) (x : A) :
  (i, x) ∈ enumerate a ↔ a !! i = Some x.
Proof.
  unfold enumerate. rewrite list_elem_of_lookup. split.
  - intros [j Hj]. rewrite enumerate_from_lookup in Hj.
    destruct (a !! j) as [y|] eqn:Hy; simplify_eq/=. done.
  - intros Hi. exists i. by rewrite enumerate_from_lookup, Hi.
Qed.

Lemma enumerate_fst (a : list A) : (enumerate a).*1 = seq 0 (length a).
Proof. unfold enumerate. apply fst_zip. by rewrite length_seq. Qed.

Lemma enumerate_from_increasing (s : nat) (a : list A) :
  StronglySorted (λ p q : nat * A, p.1 < q.1) (zip (seq s (length a)) a).
Proof.
  revert s. induction a as [|x a IH]; intros s; simpl; constructor.
  - apply IH.
  - apply Forall_forall. intros [i y] Hin. simpl.
    apply list_elem_of_lookup in Hin as [j Hj].
    rewrite enumerate_from_lookup in Hj.
    destruct (a !! j); simplify_eq/=. lia.
Qed.
End enumerate_facts.

(** ** The selected pairs *)

Section top_pairs_facts.
Context {A : Type} (R : relation A) `{!∀ x y, Decision (R x y)}.
Context `{!Total R, !Transitive R}.

Lemma sorted_pairs_perm (a : list A) : sorted_pairs R a ≡ₚ enumerate a.
Proof. unfold sorted_pairs. by rewrite fold_insert_perm. Qed.

Lemma sorted_pairs_sorted (a : list A) :
  StronglySorted (by_score R) (sorted_pairs R a).
Proof.
  unfold sorted_pairs. apply fold_insert_sorted; try done. constructor.
Qed.

Lemma argsort_perm (a : list A) : argsort R a ≡ₚ seq 0 (length a).
Proof. unfold argsort. by rewrite sorted_pairs_perm, enumerate_fst. Qed.

Lemma top_indices_pairs (a : list A) (k : Z) :
  top_indices R a k = (top_pairs R a k).*1.
Proof.
  unfold top_indices, top_pairs, slice_reversed, argsort.
  by rewrite fmap_reverse, slice_from_fmap.
Qed.

Lemma top_pairs_split (a : list A) (k : Z) :
  ∃ rest, sorted_pairs R a = (rest ++ reverse (top_pairs R a k))%list.
Proof.
  unfold top_pairs, slice_reversed. rewrite reverse_involutive.
  apply slice_from_suffix.
Qed.

Lemma top_pairs_lookup (a : list A) (k : Z) (i : nat) (x : A) :
  (i, x) ∈ top_pairs R a k → a !! i = Some x.
Proof.
  intros Hin. apply elem_of_enumerate. rewrite <- sorted_pairs_perm.
  destruct (top_pairs_split a k) as [rest ->].
  apply elem_of_app. right. by apply elem_of_reverse.
Qed.

Lemma top_pairs_NoDup (a : list A) (k : Z) : NoDup (top_pairs R a k).*1.
Proof.
  assert (NoDup (sorted_pairs R a).*1) as Hnd.
  { rewrite sorted_pairs_perm, enumerate_fst. apply NoDup_seq. }
  destruct (top_pairs_split a k) as [rest Heq]. rewrite Heq in Hnd.
  rewrite fmap_app, fmap_reverse in Hnd.
  apply NoDup_app in Hnd as (_ & _ & Hnd). by rewrite reverse_Permutation in Hnd.
Qed.

Lemma top_pairs_sorted (a : list A) (k : Z) :
  StronglySorted (flip (by_score R)) (top_pairs R a k).
Proof.
  pose proof (sorted_pairs_sorted a) as Hs.
  destruct (top_pairs_split a k) as [rest Heq]. rewrite Heq in Hs.
  apply StronglySorted_app_1_r in Hs. by apply StronglySorted_reverse_flip.
Qed.

Lemma top_pairs_above_rest (a : list A) (k : Z) (p q : nat * A) :
  p ∈ top_pairs R a k → q ∈ enumerate a → q ∉ top_pairs R a k →
  by_score R q p.
Proof.
  intros Hp Hq Hnq. pose proof (sorted_pairs_sorted a) as Hs.
  rewrite <- sorted_pairs_perm in Hq.
  destruct (top_pairs_split a k) as [rest Heq]. rewrite Heq in Hs, Hq.
  apply StronglySorted_app in Hs as (Hall & _ & _).
  apply elem_of_app in Hq as [Hq|Hq].
  - apply Hall; [done|]. by apply elem_of_reverse.
  - rewrite elem_of_reverse in Hq. by destruct Hnq.
Qed.

Lemma top_pairs_length (a : list A) (k : Z) :
  (0 < k)%Z → length (top_pairs R a k) = Z.to_nat k `min` length a.
Proof.
  intros Hk. unfold top_pairs, slice_reversed.
  rewrite length_reverse, slice_from_neg_length by done.
  rewrite sorted_pairs_perm. unfold enumerate.
  rewrite length_zip_with, length_seq. lia.
Qed.

Lemma top_pairs_scores (a : list A) (k : Z) :
  mapM (λ i, a !! i) (top_indices R a k) = Some (top_pairs R a k).*2.
Proof.
  rewrite top_indices_pairs. apply mapM_Some, Forall2_fmap, Forall_Forall2_diag.
  apply Forall_forall. intros [i x] Hin. by eapply top_pairs_lookup.
Qed.
End top_pairs_facts.

(** ** What [getTopKWords] returns *)

Lemma StronglySorted_lookup_lt {X : Type} (S : relation X) (l : list X)
    (p q : nat) (a b : X) :
  StronglySorted S l → p < q → l !! p = Some a → l !! q = Some b → S a b.
Proof.
  intros Hs. revert p q. induction Hs as [|c l Hs IH Hc]; intros p q Hpq Ha Hb.
  { by rewrite lookup_nil in Ha. }
  destruct q as [|q]; [lia|]. simpl in Hb. destruct p as [|p]; simpl in Ha.
  - simplify_eq. rewrite Forall_forall in Hc. apply Hc.
    by eapply list_elem_of_lookup_2.
  - eapply (IH p q); [lia|done..].
Qed.

Lemma lookup_images_NoDup (vocab : list string) (idx : list nat)
    (words : list string) :
  NoDup vocab → NoDup idx →
  Forall2 (λ i w, vocab !! i = Some w) idx words → NoDup words.
Proof.
  intros Hv Hidx Hf. induction Hf as [|i w idx words Hi Hf IH].
  { constructor. }
  apply NoDup_cons in Hidx as [Hni Hidx]. constructor; [|by apply IH].
  intros Hw. apply list_elem_of_lookup in Hw as [n Hn].
  destruct (Forall2_lookup_r _ _ _ _ _ Hf Hn) as (j & Hj & Hjw).
  assert (i = j) as -> by (by apply (NoDup_lookup vocab i j w)).
  apply Hni. by eapply list_elem_of_lookup_2.
Qed.

Section getTopKWords_facts.
Context {A : Type} (R : relation A) `{!∀ x y, Decision (R x y)}.
Context `{!Total R, !Transitive R}.

Lemma top_indices_lt (x : list A) (k : Z) (i : nat) :
  i ∈ top_indices R x k → i < length x.
Proof.
  rewrite top_indices_pairs. intros ([j s] & -> & Hin)%list_elem_of_fmap.
  apply top_pairs_lookup in Hin; [|done..]. by eapply lookup_lt_Some.
Qed.

Lemma top_indices_words (vocab : list string) (x : list A) (k : Z) :
  length x ≤ length vocab →
  ∃ words, mapM (λ i, vocab !! i) (top_indices R x k) = Some words
           ∧ Forall2 (λ i w, vocab !! i = Some w) (top_indices R x k) words.
Proof.
  intros Hlen.
  assert (is_Some (mapM (λ i, vocab !! i) (top_indices R x k))) as [ws Hws].
  { apply mapM_is_Some, Forall_forall. intros i Hi. simpl.
    apply lookup_lt_is_Some. apply top_indices_lt in Hi. lia. }
  exists ws. split; [done|]. by apply mapM_Some.
Qed.

(** The result is the score column of the selected pairs together with the
    vocabulary entries at their indices. *)
Lemma getTopKWords_result (vocab : list string) (x : list A) (k : Z) :
  length x ≤ length vocab →
  ∃ words, getTopKWords R vocab x k = Some ((top_pairs R x k).*2, words)
           ∧ Forall2 (λ i w, vocab !! i = Some w) (top_indices R x k) words.
Proof.
  intros Hlen. destruct (top_indices_words vocab x k Hlen) as (ws & Hws & Hf).
  exists ws. split; [|done]. unfold getTopKWords. simpl.
  rewrite top_pairs_scores by done. simpl. by rewrite Hws.
Qed.
End getTopKWords_facts.

(** ** The claims about the top-k extraction *)

Section top_k_claims.
Context {A : Type} (R : relation A) `{!∀ x y, Decision (R x y)}.
Context `{!Total R, !Transitive R}.

(** C1 (amended): for every document and every [nwords > 0], the stage
    returns exactly min(nwords, size of the tf-idf array) scores and as many
    words, whatever the number of non-zero entries; entries of score zero
    are returned like the others. *)
Theorem getTopKWords_length (vocab : list string) (x : list A) (k : Z) :
  (0 < k)%Z → length x ≤ length vocab →
  ∃ scores words,
    getTopKWords R vocab x k = Some (scores, words)
    ∧ length scores = Z.to_nat k `min` length x
    ∧ length words = Z.to_nat k `min` length x.
Proof.
  intros Hk Hlen.
  destruct (getTopKWords_result R vocab x k Hlen) as (ws & Hres & Hf).
  exists (top_pairs R x k).*2, ws. split; [done|].
  apply Forall2_length in Hf. rewrite <- Hf, top_indices_pairs.
  rewrite !length_fmap. split; by apply top_pairs_length.
Qed.

(** C2 (amended): for every document and every [nwords > 0], the stage
    selects min(nwords, size) distinct indices; every selected index has a
    score at least that of every index left out, and the selected indices
    are listed in non-increasing order of score.  Nothing is said of the
    choice and the order among indices of equal score. *)
Theorem top_indices_selects_highest (x : list A) (k : Z) :
  (0 < k)%Z →
  length (top_indices R x k) = Z.to_nat k `min` length x
  ∧ NoDup (top_indices R x k)
  ∧ (∀ i j, i ∈ top_indices R x k → j < length x →
            j ∉ top_indices R x k → score_at_least R x i j)
  ∧ (∀ p q i j, p < q → top_indices R x k !! p = Some i →
                top_indices R x k !! q = Some j → score_at_least R x i j).
Proof.
  intros Hk. rewrite top_indices_pairs. split; [|split; [|split]].
  - rewrite length_fmap. by apply top_pairs_length.
  - by apply top_pairs_NoDup.
  - intros i j ([i' si] & -> & Hi)%list_elem_of_fmap Hj Hnj. simpl.
    apply lookup_lt_is_Some in Hj as [sj Hj].
    exists si, sj. split; [by eapply top_pairs_lookup|]. split; [done|].
    apply (top_pairs_above_rest R x k (i', si) (j, sj)); [done| |].
    + by apply elem_of_enumerate.
    + intros Hin. apply Hnj. by apply (list_elem_of_fmap_2 fst) in Hin.
  - intros p q i j Hpq Hp Hq.
    apply list_lookup_fmap_Some in Hp as ([i' si] & -> & Hp).
    apply list_lookup_fmap_Some in Hq as ([j' sj] & -> & Hq). simpl.
    exists si, sj. split; [|split].
    + eapply top_pairs_lookup; [done..|]. by eapply list_elem_of_lookup_2.
    + eapply top_pairs_lookup; [done..|]. by eapply list_elem_of_lookup_2.
    + by apply (StronglySorted_lookup_lt _ _ p q (i', si) (j', sj)
                  (top_pairs_sorted R x k)).
Qed.

(** C3 (amended): for every document, the scores returned are in
    non-increasing order, no word is returned twice (the vocabulary holding
    distinct terms), there are as many words as scores, and for
    [nwords > 0] there are at most [nwords] of them. *)
Theorem getTopKWords_sorted_nodup_bounded (vocab : list string) (x : list A)
    (k : Z) :
  NoDup vocab → length x ≤ length vocab →
  ∃ scores words,
    getTopKWords R vocab x k = Some (scores, words)
    ∧ StronglySorted (flip R) scores
    ∧ NoDup words
    ∧ length words = length scores
    ∧ ((0 < k)%Z → length words ≤ Z.to_nat k).
Proof.
  intros Hv Hlen.
  destruct (getTopKWords_result R vocab x k Hlen) as (ws & Hres & Hf).
  exists (top_pairs R x k).*2, ws. split; [done|]. split; [|split; [|split]].
  - eapply StronglySorted_fmap; [|by apply top_pairs_sorted].
    by intros p q Hqp.
  - eapply lookup_images_NoDup; [done| |done].
    rewrite top_indices_pairs. by apply top_pairs_NoDup.
  - apply Forall2_length in Hf. rewrite <- Hf, top_indices_pairs.
    by rewrite !length_fmap.
  - intros Hk. apply Forall2_length in Hf.
    rewrite <- Hf, top_indices_pairs, length_fmap, top_pairs_length by done.
    lia.
Qed.

End top_k_claims.

(** ** The vectors that reach the stage *)

Lemma term_index_lt (vocab : list string) (t : string) (i : nat) :
  term_index vocab t = Some i → i < length vocab.
Proof.
  unfold term_index. intros Hi.
  destruct (list_find _ vocab) as [[j u]|] eqn:Hfind; [|done].
  simpl in Hi. injection Hi as <-.
  apply list_find_Some in Hfind as (Hj & _). by eapply lookup_lt_Some.
Qed.

Lemma term_vector_lookup_lt (vocab doc : list string) (i : nat) :
  is_Some (term_vector vocab doc !! i) → i < length vocab.
Proof.
  unfold term_vector.
  assert (∀ tv : gmap nat nat, (∀ j, is_Some (tv !! j) → j < length vocab) →
            ∀ j, is_Some (fold_left
                   (λ tv t, match term_index vocab t with
                            | Some i => <[i := S (default 0 (tv !! i))]> tv
                            | None => tv
                            end) doc tv !! j) → j < length vocab) as Hinv.
  { induction doc as [|t doc IH]; intros tv Htv j; simpl; [apply Htv|].
    apply IH. intros j'.
    destruct (term_index vocab t) as [i'|] eqn:Ht; [|apply Htv].
    rewrite lookup_insert_is_Some. intros [<-|[_ Hj']]; [|by apply Htv].
    by eapply term_index_lt. }
  apply Hinv. intros j. rewrite lookup_empty. by intros [? ?].
Qed.

Lemma build_vocabulary_length (mindf : Q) (vocabsize : Z)
    (docs : list (list string)) :
  length (build_vocabulary mindf vocabsize docs) ≤ Z.to_nat vocabsize.
Proof. unfold build_vocabulary. rewrite length_take. lia. Qed.

Lemma build_vocabulary_NoDup (mindf : Q) (vocabsize : Z)
    (docs : list (list string)) :
  NoDup (build_vocabulary mindf vocabsize docs).
Proof.
  unfold build_vocabulary. eapply sublist_NoDup; [|apply sublist_take].
  rewrite merge_sort_Permutation. apply NoDup_filter, NoDup_remove_dups.
Qed.

Lemma tfidf_vector_length {A : Type} (idf_weight : nat → nat → A)
    (times : nat → A → A) (vocab : list string) (tvs : list (gmap nat nat))
    (tv : gmap nat nat) :
  length (tfidf_vector idf_weight times vocab tvs tv) = length vocab.
Proof. unfold tfidf_vector. by rewrite length_fmap, length_seq. Qed.

Section pipeline_bounds.
Context {A : Type} (R : relation A) `{!∀ x y, Decision (R x y)}.
Context (idf_weight : nat → nat → A) (times : nat → A → A).

(** C7: for every corpus, every configuration and every document, with the
    vocabulary built from the corpus and captured from the fitted stages,
    every index of the document's TermVector and of its dense tf-idf array
    lies in [0, vocabsize), every index selected by the stage lies there
    too and is in bounds for [vocab[i]], and the extraction returns a
    result, whatever [nwords]. *)
Theorem pipeline_lookup_in_bounds (mindf : Q) (vocabsize : Z)
    (docs : list (list string)) (doc : list string) (k : Z) :
  let vocab := build_vocabulary mindf vocabsize docs in
  let tvs := term_vector vocab <$> docs in
  let x := tfidf_vector idf_weight times vocab tvs (term_vector vocab doc) in
  captured_vocab (fitted_stages vocab) = Some vocab
  ∧ (∀ i, is_Some (term_vector vocab doc !! i) → (Z.of_nat i < vocabsize)%Z)
  ∧ (∀ i s, x !! i = Some s → (Z.of_nat i < vocabsize)%Z)
  ∧ (∀ i, i ∈ top_indices R x k →
          (Z.of_nat i < vocabsize)%Z ∧ is_Some (vocab !! i))
  ∧ is_Some (getTopKWords R vocab x k).
Proof.
  intros vocab tvs x.
  pose proof (build_vocabulary_length mindf vocabsize docs) as Hsize.
  fold vocab in Hsize.
  assert (length x = length vocab) as Hlen by apply tfidf_vector_length.
  split; [reflexivity|]. split; [|split; [|split]].
  - intros i Hi. apply term_vector_lookup_lt in Hi. lia.
  - intros i s Hi. apply lookup_lt_Some in Hi. lia.
  - intros i Hi. apply top_indices_lt in Hi.
    split; [lia|]. apply lookup_lt_is_Some. lia.
  - destruct (getTopKWords_result R vocab x k) as (ws & -> & _); [lia|done].
Qed.
End pipeline_bounds.

(** ** Concrete documents *)

Example getTopKWords_examples :
  getTopKWords Z.le ["a"; "b"; "c"; "d"] [5; 9; 1; 7]%Z 2
    = Some ([9; 7]%Z, ["b"; "d"])
  ∧ getTopKWords Z.le ["a"; "b"; "c"; "d"] [5; 9; 1; 7]%Z 10
    = Some ([9; 7; 5; 1]%Z, ["b"; "d"; "a"; "c"])
  ∧ getTopKWords Z.le ["a"; "b"; "c"; "d"] [5; 9; 1; 7]%Z (-1)
    = Some ([9; 7; 5]%Z, ["b"; "d"; "a"])
  ∧ getTopKWords Z.le ["a"; "b"] [5; 9; 1; 7]%Z 2 = None.
Proof. repeat split; by vm_compute. Qed.

Example TopKWords_transform_example :
  TopKWords_transform Z.le id false ["u"; "v"; "w"]
    (TopKWords_init None None (Some "tfidf") (Some "top_words") 2)
    [("subreddit", [CString "aww"; CString "news"]);
     ("tfidf", [CVector [1; 3; 2]%Z; CVector [0; 0; 5]%Z])]
  = Some [("subreddit", [CString "aww"; CString "news"]);
          ("tfidf", [CVector [1; 3; 2]%Z; CVector [0; 0; 5]%Z]);
          ("top_words", [CTopWords [3; 2]%Z ["v"; "w"];
                         CTopWords [5; 0]%Z ["w"; "v"]])].
Proof. by vm_compute. Qed.

(** C1 (as stated, refuted): the array [3, 0, 0] has one non-zero entry,
    fewer than [nwords = 2], and the stage returns two entries, the second
    with score zero, instead of an empty sequence. *)
Lemma getTopKWords_zero_scores_not_empty :
  length (filter (λ s, s ≠ 0%Z) [3; 0; 0]%Z) < Z.to_nat 2
  ∧ getTopKWords Z.le ["u"; "v"; "w"] [3; 0; 0]%Z 2
    = Some ([3; 0]%Z, ["u"; "w"])
  ∧ getTopKWords Z.le ["u"; "v"; "w"] [3; 0; 0]%Z 2 ≠ Some ([], []).
Proof. split; [vm_compute; lia|]. split; [by vm_compute|]. by vm_compute. Qed.

Lemma getTopKWords_length_witness :
  (0 < 2)%Z ∧ length [3; 0; 0]%Z ≤ length ["u"; "v"; "w"]
  ∧ ∃ scores words,
      getTopKWords Z.le ["u"; "v"; "w"] [3; 0; 0]%Z 2 = Some (scores, words)
      ∧ length scores = Z.to_nat 2 `min` length [3; 0; 0]%Z
      ∧ length words = Z.to_nat 2 `min` length [3; 0; 0]%Z.
Proof.
  split; [lia|]. split; [simpl; lia|].
  apply (getTopKWords_length Z.le); [lia|simpl; lia].
Defined.

(** C2 (as stated, refuted): in the array [1, 1] both indices have the same
    score; with [nwords = 1] the stage selects index 1 and leaves out the
    lower index 0. *)
Lemma top_indices_tie_selects_higher_index :
  top_indices Z.le [1; 1]%Z 1 = [1]
  ∧ ¬ lower_index_first Z.le [1; 1]%Z (top_indices Z.le [1; 1]%Z 1).
Proof.
  assert (top_indices Z.le [1; 1]%Z 1 = [1]) as Heq by (by vm_compute).
  split; [done|]. rewrite Heq. intros Hclaim.
  destruct (Hclaim 0 1 1%Z 1%Z) as (pi & pj & Hi & _); [lia|done..|set_solver|].
  destruct pi as [|pi]; simpl in Hi; [done|]. by rewrite lookup_nil in Hi.
Qed.

Lemma top_indices_selects_highest_witness :
  (0 < 2)%Z
  ∧ length (top_indices Z.le [5; 9; 9; 1]%Z 2)
    = Z.to_nat 2 `min` length [5; 9; 9; 1]%Z
  ∧ NoDup (top_indices Z.le [5; 9; 9; 1]%Z 2)
  ∧ (∀ i j, i ∈ top_indices Z.le [5; 9; 9; 1]%Z 2 → j < length [5; 9; 9; 1]%Z →
            j ∉ top_indices Z.le [5; 9; 9; 1]%Z 2 →
            score_at_least Z.le [5; 9; 9; 1]%Z i j)
  ∧ (∀ p q i j, p < q → top_indices Z.le [5; 9; 9; 1]%Z 2 !! p = Some i →
                top_indices Z.le [5; 9; 9; 1]%Z 2 !! q = Some j →
                score_at_least Z.le [5; 9; 9; 1]%Z i j).
Proof.
  split; [lia|]. apply (top_indices_selects_highest Z.le [5; 9; 9; 1]%Z 2). lia.
Defined.

(** C3 (as stated, refuted): with [nwords = 0] the slice [[-0:]] is the
    whole array, and the stage returns three words, more than [nwords]. *)
Lemma getTopKWords_nwords_zero_returns_all :
  getTopKWords Z.le ["u"; "v"; "w"] [5; 9; 1]%Z 0
    = Some ([9; 5; 1]%Z, ["v"; "u"; "w"])
  ∧ ¬ (Z.of_nat (length ["v"; "u"; "w"]) ≤ 0)%Z.
Proof. split; [by vm_compute|]. simpl. lia. Qed.

Lemma getTopKWords_sorted_nodup_bounded_witness :
  NoDup ["u"; "v"; "w"] ∧ length [5; 9; 1]%Z ≤ length ["u"; "v"; "w"]
  ∧ ∃ scores words,
      getTopKWords Z.le ["u"; "v"; "w"] [5; 9; 1]%Z 2 = Some (scores, words)
      ∧ StronglySorted (flip Z.le) scores
      ∧ NoDup words
      ∧ length words = length scores
      ∧ ((0 < 2)%Z → length words ≤ Z.to_nat 2).
Proof.
  assert (NoDup ["u"; "v"; "w"]) as Hv by (by apply (bool_decide_unpack _)).
  split; [exact Hv|]. split; [simpl; lia|].
  apply (getTopKWords_sorted_nodup_bounded Z.le); [exact Hv|simpl; lia].
Defined.

(** The example of the specification: with [vocabsize = 2] and
    [mindf = 1], of the terms cat (5 documents), dog (3) and fish (1) the
    vocabulary keeps cat and dog, and fish is counted in no TermVector. *)
Example build_vocabulary_example :
  let docs := [["cat"; "dog"]; ["cat"; "dog"]; ["dog"; "cat"]; ["cat"; "fish"];
               ["cat"]] in
  build_vocabulary 1 2 docs = ["cat"; "dog"]
  ∧ term_vector ["cat"; "dog"] ["cat"; "fish"; "cat"] = {[0 := 2]}
  ∧ captured_vocab (fitted_stages ["cat"; "dog"]) = Some ["cat"; "dog"].
Proof. repeat split; by vm_compute. Qed.

(** ** Command line options and construction of the stage *)

Lemma store_options_app (ps : list Argument) (ns : gmap string ArgValue)
    (l1 l2 : list (string * ArgValue)) :
  store_options ps ns (l1 ++ l2)
  = store_options ps ns l1 ≫= λ ns', store_options ps ns' l2.
Proof.
  revert ns. induction l1 as [|o l1 IH]; intros ns; simpl; [done|].
  destruct (store_option ps ns o) as [ns1|]; simpl; [apply IH|done].
Qed.

Lemma find_argument_Some (ps : list Argument) (flag : string) (a : Argument) :
  find_argument ps flag = Some a → a ∈ ps ∧ arg_flag a = flag.
Proof.
  unfold find_argument. intros Hf.
  destruct (list_find _ ps) as [[i b]|] eqn:Hfind; simplify_eq/=.
  apply list_find_Some in Hfind as (Hi & Hflag & _).
  split; [by eapply list_elem_of_lookup_2|done].
Qed.

(** An option whose flag is not supplied keeps the binding it had. *)
Lemma store_options_untouched (ps : list Argument) (dest : string)
    (argv : list (string * ArgValue)) (ns ns' : gmap string ArgValue) :
  (∀ a, a ∈ ps → arg_flag a ∈ argv.*1 → arg_dest a ≠ dest) →
  store_options ps ns argv = Some ns' → ns' !! dest = ns !! dest.
Proof.
  revert ns. induction argv as [|o argv IH]; intros ns Hflags Hrun.
  { by simplify_eq/=. }
  simpl in Hrun. destruct (store_option ps ns o) as [ns1|] eqn:Hst; [|done].
  simpl in Hrun. rewrite (IH ns1); [| |done].
  2:{ intros a Ha Hfl. apply Hflags; [done|].
      rewrite fmap_cons. apply elem_of_cons. by right. }
  unfold store_option in Hst.
  destruct (find_argument ps o.1) as [a|] eqn:Hfind; [|done]. simpl in Hst.
  apply find_argument_Some in Hfind as [Hin Hflag].
  destruct (has_type _ _); simplify_eq. apply lookup_insert_ne.
  apply Hflags; [done|]. rewrite Hflag, fmap_cons. apply elem_of_cons. by left.
Qed.

Lemma parser_dest_flag (a : Argument) (dest : string) :
  a ∈ parser → arg_dest a = dest → arg_flag a = ("--" ++ dest)%string.
Proof.
  unfold parser. rewrite !elem_of_cons, elem_of_nil.
  intros [->|[->|[->|[->|[->|[->|[]]]]]]] <-; reflexivity.
Qed.

Lemma parse_args_default (argv : list (string * ArgValue))
    (ns : gmap string ArgValue) (dest : string) :
  parse_args argv = Some ns → ("--" ++ dest)%string ∉ argv.*1 →
  ns !! dest = defaults parser !! dest.
Proof.
  intros Hrun Hflag. eapply store_options_untouched; [|exact Hrun].
  intros a Hin Hsup Hdest. apply Hflag.
  by rewrite <- (parser_dest_flag a dest).
Qed.

(** C5: an option that is not supplied has its default: minlength 50000,
    nwords 10, nsubreddits 10, mindf 1.0 and vocabsize 20000. *)
Theorem parse_args_defaults (argv : list (string * ArgValue))
    (ns : gmap string ArgValue) :
  parse_args argv = Some ns →
  ("--minlength" ∉ argv.*1 → ns !! "minlength" = Some (VInt 50000))
  ∧ ("--nwords" ∉ argv.*1 → ns !! "nwords" = Some (VInt 10))
  ∧ ("--nsubreddits" ∉ argv.*1 → ns !! "nsubreddits" = Some (VInt 10))
  ∧ ("--mindf" ∉ argv.*1 → ns !! "mindf" = Some (VFloat 1))
  ∧ ("--vocabsize" ∉ argv.*1 → ns !! "vocabsize" = Some (VInt 20000)).
Proof.
  intros Hrun.
  repeat split; intros Hflag;
    by rewrite (parse_args_default argv ns _ Hrun Hflag).
Qed.

Lemma parse_args_defaults_witness :
  parse_args [("--nwords", VInt 3)]
    = Some (<["nwords" := VInt 3]> (defaults parser))
  ∧ <["nwords" := VInt 3]> (defaults parser) !! "minlength"
    = Some (VInt 50000)
  ∧ <["nwords" := VInt 3]> (defaults parser) !! "vocabsize"
    = Some (VInt 20000).
Proof.
  assert (parse_args [("--nwords", VInt 3)]
          = Some (<["nwords" := VInt 3]> (defaults parser))) as Hrun
    by reflexivity.
  split; [exact Hrun|].
  destruct (parse_args_defaults _ _ Hrun) as (Hml & _ & _ & _ & Hvs).
  split; [apply Hml|apply Hvs]; simpl;
    (apply not_elem_of_cons; split; [discriminate|apply not_elem_of_nil]).
Defined.




(** ** The output table *)

Example normpath_examples :
  normpath "data//RC_2015-01/" = "data/RC_2015-01"
  ∧ normpath "/srv/./in/../RC_2015-01" = "/srv/RC_2015-01"
  ∧ normpath "a/.." = "."
  ∧ normpath "" = ".".
Proof. repeat split; reflexivity. Qed.

Example basename_examples :
  basename "data/RC_2015-01" = "RC_2015-01"
  ∧ basename "RC_2015-01" = "RC_2015-01"
  ∧ basename "data/" = "".
Proof. repeat split; reflexivity. Qed.

Example table_name_examples :
  table_name "data/RC_2015-01" = "RC201501"
  ∧ table_name "data/RC_2015-01/" = "RC201501"
  ∧ table_name "my-dir_1/comments" = "comments".
Proof. repeat split; reflexivity. Qed.

Lemma trans_table_lookup (c : ascii) :
  trans_table !! c
  = if Ascii.eqb c "-" || Ascii.eqb c "_" then Some None else None.
Proof.
  unfold trans_table, maketrans. simpl.
  destruct (Ascii.eqb_spec c "_") as [->|Hu].
  { rewrite lookup_insert_eq. by rewrite orb_true_r. }
  rewrite lookup_insert_ne by done.
  destruct (Ascii.eqb_spec c "-") as [->|Hh].
  { by rewrite lookup_insert_eq. }
  by rewrite lookup_insert_ne, lookup_empty.
Qed.

Lemma translate_trans_table (s : string) :
  translate trans_table s = delete_hyphens_underscores s.
Proof.
  induction s as [|c s IH]; simpl; [done|].
  rewrite trans_table_lookup. destruct (_ || _); by rewrite IH.
Qed.

(** C9: the table name is the basename of the (normalised) input path with
    every '-' and '_' deleted, so two paths whose basenames are equal once
    hyphens and underscores are deleted are saved under the same name. *)
Theorem table_name_deletes_hyphens_underscores (p1 p2 : string) :
  delete_hyphens_underscores (basename (normpath p1))
  = delete_hyphens_underscores (basename (normpath p2)) →
  table_name p1 = delete_hyphens_underscores (basename (normpath p1))
  ∧ table_name p2 = delete_hyphens_underscores (basename (normpath p2))
  ∧ table_name p1 = table_name p2.
Proof.
  intros Heq. unfold table_name. simpl. rewrite !translate_trans_table.
  by rewrite Heq.
Qed.

Lemma table_name_deletes_hyphens_underscores_witness :
  "data/RC_2015-01" ≠ "data/RC-2015_01"
  ∧ table_name "data/RC_2015-01" = "RC201501"
  ∧ table_name "data/RC_2015-01" = table_name "data/RC-2015_01".
Proof.
  split; [discriminate|].
  destruct (table_name_deletes_hyphens_underscores
              "data/RC_2015-01" "data/RC-2015_01") as (H1 & _ & H12).
  { reflexivity. }
  split; [|exact H12]. rewrite H1. reflexivity.
Defined.

Lemma save_results_unfold {A : Type} (valid_table_name : string → bool)
    (cs : bool) (filepath : string) (transformed : DataFrame A)
    (store : gmap string (DataFrame A)) :
  save_results valid_table_name cs filepath transformed store
  = if valid_table_name (table_name filepath)
       && negb (raises (final_df cs transformed))
    then Some (<[string_lower (table_name filepath)
                 := final_df cs transformed]> store)
    else None.
Proof.
  unfold save_results, saveAsTable. simpl.
  destruct (valid_table_name (table_name filepath)); simpl; [|done].
  destruct (raises (final_df cs transformed)); simpl; [done|].
  by destruct (store !! string_lower (table_name filepath)).
Qed.

(** C8: when a run saves its results, the table of the run's name (table
    names being kept in lower case) holds exactly the run's final
    DataFrame afterwards, whatever the store held before; the name is one
    that Spark accepts, and the save would have succeeded on any other
    earlier content of the store as well. *)
Theorem save_results_replaces_table {A : Type}
    (valid_table_name : string → bool) (cs : bool) (filepath : string)
    (transformed : DataFrame A) (store store' : gmap string (DataFrame A)) :
  save_results valid_table_name cs filepath transformed store = Some store' →
  store' !! string_lower (table_name filepath)
    = Some (final_df cs transformed)
  ∧ valid_table_name (table_name filepath) = true
  ∧ ∀ earlier,
      is_Some (save_results valid_table_name cs filepath transformed earlier).
Proof.
  rewrite save_results_unfold. intros Hrun.
  destruct (valid_table_name (table_name filepath)) eqn:Hvalid; [|done].
  destruct (raises (final_df cs transformed)) eqn:Hraises; [done|].
  simpl in Hrun. injection Hrun as <-. split; [apply lookup_insert_eq|].
  split; [done|]. intros earlier.
  rewrite save_results_unfold, Hvalid, Hraises. by eexists.
Qed.

Lemma save_results_replaces_table_witness :
  save_results (λ name, String.eqb name "RC201501") false "data/RC_2015-01"
    [("subreddit", [CString "aww"]); ("body", [CString "so cute"])]
    {["rc201501" := [("subreddit", [@CString Z "news"])]]}
  = Some {["rc201501" := [("subreddit", [@CString Z "aww"])]]}
  ∧ ({["rc201501" := [("subreddit", [@CString Z "aww"])]]}
       : gmap string (DataFrame Z)) !! string_lower (table_name "data/RC_2015-01")
    = Some (final_df false
              [("subreddit", [CString "aww"]); ("body", [CString "so cute"])]).
Proof.
  assert (save_results (λ name, String.eqb name "RC201501") false
            "data/RC_2015-01"
            [("subreddit", [CString "aww"]); ("body", [CString "so cute"])]
            {["rc201501" := [("subreddit", [@CString Z "news"])]]}
          = Some {["rc201501" := [("subreddit", [@CString Z "aww"])]]})
    as Hrun.
  { reflexivity. }
  split; [exact Hrun|].
  by destruct (save_results_replaces_table _ _ _ _ _ _ Hrun) as [Hget _].
Defined.

(** Unlike the mode chosen by the driver, appending keeps the old rows. *)
Example saveAsTable_append_keeps_rows :
  saveAsTable (λ _, true) Append "T" [("c", [CNumber 2])]
    ({["t" := [("c", [@CNumber Z 1])]]} : gmap string (DataFrame Z))
  ≫= (λ s, s !! "t")
  = Some [("c", [CNumber 1; CNumber 2])].
Proof. reflexivity. Qed.

(** ** The columns of the output *)

Lemma drop_columns_sublist {A : Type} (cs : bool) (names : list string)
    (df : DataFrame A) :
  drop_columns cs names df `sublist_of` df.
Proof.
  unfold drop_columns. induction df as [|c df IH]; simpl; [constructor|].
  destruct (forallb _ names); by constructor.
Qed.

Lemma elem_of_drop_columns {A : Type} (cs : bool) (names : list string)
    (df : DataFrame A) (c : string * list (Cell A)) :
  c ∈ drop_columns cs names df
  ↔ c ∈ df ∧ ∀ n, n ∈ names → resolver cs c.1 n = false.
Proof.
  unfold drop_columns. rewrite !list_elem_of_In, filter_In, forallb_forall.
  apply and_iff_compat_l. split; intros Hn n Hin.
  - apply list_elem_of_In, Hn in Hin. by apply negb_true_iff.
  - apply list_elem_of_In, Hn in Hin. by apply negb_true_iff.
Qed.

Lemma withColumn_elem {A : Type} (cs : bool) (name : string)
    (data : list (Cell A)) (df : DataFrame A) :
  (name, data) ∈ withColumn cs name data df.
Proof.
  unfold withColumn.
  destruct (existsb _ df) eqn:Hex; [|set_solver].
  apply existsb_exists in Hex as (c & Hin & Hc).
  apply list_elem_of_fmap. exists c. rewrite Hc.
  split; [done|by apply list_elem_of_In].
Qed.

Lemma final_df_keeps_results {A : Type} (cs : bool) (df : DataFrame A)
    (name : string) (data : list (Cell A)) :
  (name, data) ∈ df → name ∈ ["tfidf"; "top_words"; "top_subreddits"] →
  (name, data) ∈ final_df cs df.
Proof.
  intros Hin Hname. apply elem_of_drop_columns. split; [done|].
  simpl. intros n Hn. unfold dropped_columns in Hn.
  set_unfold in Hname. set_unfold in Hn.
  destruct cs;
    destruct Hname as [-> | [-> | [-> | []]]];
    destruct Hn as [-> | [-> | [-> | [-> | [-> | [-> | []]]]]]]; reflexivity.
Qed.

(** C10: the final DataFrame keeps, in their order and with their cells
    unchanged, exactly the columns of the transformed DataFrame that none of
    the names body, cleaned, tf, tokens, swr_tokens and norm resolves to; a
    column named tfidf, top_words or top_subreddits is therefore kept. *)
Theorem final_df_columns {A : Type} (cs : bool) (transformed : DataFrame A) :
  (∀ c, c ∈ final_df cs transformed
        ↔ c ∈ transformed
          ∧ ∀ n, n ∈ ["body"; "cleaned"; "tf"; "tokens"; "swr_tokens"; "norm"]
                 → resolver cs c.1 n = false)
  ∧ final_df cs transformed `sublist_of` transformed
  ∧ (∀ name data, (name, data) ∈ transformed →
       name ∈ ["tfidf"; "top_words"; "top_subreddits"] →
       (name, data) ∈ final_df cs transformed).
Proof.
  split; [|split].
  - intros c. apply elem_of_drop_columns.
  - apply drop_columns_sublist.
  - intros name data. apply final_df_keeps_results.
Qed.

(** The column added by the stage is among those that are kept. *)
Lemma TopKWords_transform_top_words_kept {A : Type} (R : relation A)
    `{!∀ x y, Decision (R x y)} (narrow : A → A) (cs : bool)
    (vocab : list string) (self : TopKWords) (df df' : DataFrame A) :
  TopKWords_transform R narrow cs vocab self df = Some df' →
  ∃ x, resolve_col cs "tfidf" df = Some x
       ∧ ("top_words",
          (λ c, default CRaises (topkwords_udf R narrow vocab self c)) <$> x)
         ∈ final_df cs df'.
Proof.
  unfold TopKWords_transform. intros Hrun.
  destruct (resolve_col cs "tfidf" df) as [x|]; [|done]. simpl in Hrun.
  injection Hrun as <-. exists x. split; [done|].
  apply final_df_keeps_results; [apply withColumn_elem|].
  apply list_elem_of_further, list_elem_of_here.
Qed.

(** * Further properties of the driver *)

(** ** Slices *)

Lemma slice_from_neg_pos {X : Type} (k : Z) (l : list X) :
  (0 < k)%Z → slice_from (- k) l = drop (length l - Z.to_nat k) l.
Proof.
  intros Hk. unfold slice_from. destruct (decide (- k < 0)%Z); [|lia].
  f_equal. lia.
Qed.

Lemma slice_from_neg_nonpos {X : Type} (k : Z) (l : list X) :
  (k ≤ 0)%Z → slice_from (- k) l = drop (Z.to_nat (- k)) l.
Proof.
  intros Hk. unfold slice_from. destruct (decide (- k < 0)%Z); [lia|].
  destruct (decide (Z.to_nat (- k) ≤ length l)) as [Hle|Hgt].
  - f_equal. lia.
  - rewrite !drop_ge by lia. done.
Qed.

(** ** The sort behind [argsort] *)

Section argsort_facts.
Context {A : Type} (R : relation A) `{!∀ x y, Decision (R x y)}.
Context `{!Total R, !Transitive R}.

Lemma argsort_lookup_pair (a : list A) (p i : nat) :
  argsort R a !! p = Some i →
  ∃ s, sorted_pairs R a !! p = Some (i, s) ∧ a !! i = Some s.
Proof.
  unfold argsort. intros ([i' s] & -> & Hp)%list_lookup_fmap_Some.
  exists s. split; [done|]. apply elem_of_enumerate.
  rewrite <- (sorted_pairs_perm R). by eapply list_elem_of_lookup_2.
Qed.

(** X7: [argsort] returns every index of the array exactly once, in
    non-decreasing order of value. *)
Theorem argsort_sorts (a : list A) :
  argsort R a ≡ₚ seq 0 (length a)
  ∧ ∀ p q i j si sj, p < q →
      argsort R a !! p = Some i → argsort R a !! q = Some j →
      a !! i = Some si → a !! j = Some sj → R si sj.
Proof.
  split; [by apply argsort_perm|].
  intros p q i j si sj Hpq Hp Hq Hi Hj.
  apply argsort_lookup_pair in Hp as (si' & Hp & Hi').
  apply argsort_lookup_pair in Hq as (sj' & Hq & Hj').
  assert (si' = si) as -> by congruence.
  assert (sj' = sj) as -> by congruence.
  exact (StronglySorted_lookup_lt _ _ p q (i, si) (j, sj)
           (sorted_pairs_sorted R a) Hpq Hp Hq).
Qed.
End argsort_facts.

Lemma argsort_sorts_witness :
  argsort Z.le [5; 9; 2; 1]%Z = [3; 2; 0; 1]
  ∧ argsort Z.le [5; 9; 2; 1]%Z ≡ₚ seq 0 4
  ∧ ∀ p q i j si sj, p < q →
      argsort Z.le [5; 9; 2; 1]%Z !! p = Some i →
      argsort Z.le [5; 9; 2; 1]%Z !! q = Some j →
      [5; 9; 2; 1]%Z !! i = Some si → [5; 9; 2; 1]%Z !! j = Some sj →
      (si ≤ sj)%Z.
Proof.
  split; [by vm_compute|]. exact (argsort_sorts Z.le [5; 9; 2; 1]%Z).
Defined.

(** ** More on the selected indices *)

Lemma Forall2_functional {X Y : Type} (f : X → option Y) (l : list X)
    (k1 k2 : list Y) :
  Forall2 (λ x y, f x = Some y) l k1 → Forall2 (λ x y, f x = Some y) l k2 →
  k1 = k2.
Proof.
  intros H1 H2. apply mapM_Some in H1, H2. congruence.
Qed.

Lemma getTopKWords_Some {A : Type} (R : relation A)
    `{!∀ x y, Decision (R x y)} (vocab : list string) (x : list A) (k : Z)
    (scores : list A) (words : list string) :
  getTopKWords R vocab x k = Some (scores, words)
  ↔ Forall2 (λ i s, x !! i = Some s) (top_indices R x k) scores
    ∧ Forall2 (λ i w, vocab !! i = Some w) (top_indices R x k) words.
Proof.
  unfold getTopKWords. simpl. rewrite <- !mapM_Some.
  destruct (mapM (λ i, x !! i) _) as [s|]; simpl.
  2:{ split; [done|]. by intros [? _]. }
  destruct (mapM (λ i, vocab !! i) _) as [w|]; simpl.
  - split; [by intros [= -> ->]|]. by intros [[= ->] [= ->]].
  - split; [done|]. by intros [_ ?].
Qed.

Section top_indices_facts.
Context {A : Type} (R : relation A) `{!∀ x y, Decision (R x y)}.
Context `{!Total R, !Transitive R}.

Lemma argsort_length (x : list A) : length (argsort R x) = length x.
Proof. by rewrite argsort_perm, length_seq. Qed.

Lemma top_indices_NoDup (x : list A) (k : Z) : NoDup (top_indices R x k).
Proof. rewrite top_indices_pairs. by apply top_pairs_NoDup. Qed.

Lemma top_indices_above_rest (x : list A) (k : Z) (i j : nat) :
  i ∈ top_indices R x k → j < length x → j ∉ top_indices R x k →
  score_at_least R x i j.
Proof.
  rewrite top_indices_pairs.
  intros ([i' si] & -> & Hi)%list_elem_of_fmap Hj Hnj. simpl.
  apply lookup_lt_is_Some in Hj as [sj Hj].
  exists si, sj. split; [by eapply top_pairs_lookup|]. split; [done|].
  apply (top_pairs_above_rest R x k (i', si) (j, sj)); [done| |].
  - by apply elem_of_enumerate.
  - intros Hin. apply Hnj. by apply (list_elem_of_fmap_2 fst) in Hin.
Qed.

(** X1: for [nwords <= 0] the slice [[-k:]] cuts from the front: the stage
    returns all entries but [-nwords] of the lowest scores (all of them for
    [nwords = 0], none once [-nwords] reaches the size of the array), and
    every entry returned has a score at least that of every entry left
    out. *)
Theorem top_indices_nonpositive (x : list A) (k : Z) :
  (k ≤ 0)%Z →
  length (top_indices R x k) = length x - Z.to_nat (- k)
  ∧ ∀ i j, i ∈ top_indices R x k → j < length x →
           j ∉ top_indices R x k → score_at_least R x i j.
Proof.
  intros Hk. split; [|apply top_indices_above_rest].
  unfold top_indices, slice_reversed.
  rewrite length_reverse, slice_from_neg_nonpos, length_drop by done.
  by rewrite argsort_length.
Qed.

(** X4: for [nwords = 0] and for every [nwords] that is at least the size
    of the array, the stage returns every index of the array exactly once:
    the whole vocabulary, ranked. *)
Theorem top_indices_all (x : list A) (k : Z) :
  (k = 0 ∨ Z.of_nat (length x) ≤ k)%Z →
  top_indices R x k = reverse (argsort R x)
  ∧ top_indices R x k ≡ₚ seq 0 (length x).
Proof.
  intros Hk.
  assert (top_indices R x k = reverse (argsort R x)) as Heq.
  { unfold top_indices, slice_reversed. f_equal.
    destruct (decide (0 < k)%Z) as [Hpos|Hnpos].
    - rewrite slice_from_neg_pos, argsort_length by done.
      replace (length x - Z.to_nat k) with 0 by lia. done.
    - assert (k = 0%Z) as -> by lia. apply slice_from_zero. }
  split; [done|]. by rewrite Heq, reverse_Permutation, argsort_perm.
Qed.

(** X6: raising [nwords] only adds entries at the end: for
    [0 < k <= k'] the indices selected for [k] are the first of those
    selected for [k'], and so are the scores and the words returned. *)
Theorem getTopKWords_prefix (vocab : list string) (x : list A) (k k' : Z)
    (scores scores' : list A) (words words' : list string) :
  (0 < k ≤ k')%Z →
  getTopKWords R vocab x k = Some (scores, words) →
  getTopKWords R vocab x k' = Some (scores', words') →
  top_indices R x k `prefix_of` top_indices R x k'
  ∧ scores `prefix_of` scores' ∧ words `prefix_of` words'.
Proof.
  intros Hk Hres Hres'.
  assert (∃ rest, top_indices R x k' = (top_indices R x k ++ rest)%list)
    as [rest Hpre].
  { unfold top_indices, slice_reversed.
    rewrite !slice_from_neg_pos by lia.
    set (l := argsort R x). set (n := length l).
    set (m := drop (n - Z.to_nat k') l).
    replace (drop (n - Z.to_nat k) l)
      with (drop ((n - Z.to_nat k) - (n - Z.to_nat k')) m).
    2:{ unfold m. rewrite drop_drop. f_equal. lia. }
    exists (reverse (take ((n - Z.to_nat k) - (n - Z.to_nat k')) m)).
    rewrite <- reverse_app. by rewrite take_drop. }
  split; [by exists rest|].
  apply getTopKWords_Some in Hres as [Hs Hw].
  apply getTopKWords_Some in Hres' as [Hs' Hw'].
  rewrite Hpre in Hs', Hw'.
  apply Forall2_app_inv_l in Hs' as (s1 & s2 & Hs1 & _ & ->).
  apply Forall2_app_inv_l in Hw' as (w1 & w2 & Hw1 & _ & ->).
  rewrite (Forall2_functional _ _ _ _ Hs Hs1).
  rewrite (Forall2_functional _ _ _ _ Hw Hw1).
  split; eexists; done.
Qed.
End top_indices_facts.

(** ** What the extraction returns, and when it fails *)

Section getTopKWords_shape.
Context {A : Type} (R : relation A) `{!∀ x y, Decision (R x y)}.

(** X2: the two lists returned are aligned: there are as many words as
    scores, and at every position the score and the word are the array
    entry and the vocabulary entry of one and the same index; no index is
    used at two positions. *)
Theorem getTopKWords_aligned (vocab : list string) (x : list A) (k : Z)
    (scores : list A) (words : list string) :
  getTopKWords R vocab x k = Some (scores, words) →
  length scores = length words
  ∧ NoDup (top_indices R x k)
  ∧ ∀ p, p < length scores →
      ∃ i s w, top_indices R x k !! p = Some i
               ∧ scores !! p = Some s ∧ words !! p = Some w
               ∧ x !! i = Some s ∧ vocab !! i = Some w.
Proof.
  intros [Hs Hw]%getTopKWords_Some.
  pose proof (Forall2_length _ _ _ Hs) as Hls.
  pose proof (Forall2_length _ _ _ Hw) as Hlw.
  split; [lia|]. split.
  { rewrite top_indices_pairs. apply top_pairs_NoDup. }
  intros p Hp.
  destruct (lookup_lt_is_Some_2 scores p Hp) as [s Hps].
  destruct (Forall2_lookup_r _ _ _ _ _ Hs Hps) as (i & Hi & Hxi).
  destruct (Forall2_lookup_l _ _ _ _ _ Hw Hi) as (w & Hpw & Hvi).
  by exists i, s, w.
Qed.

(** X3: the extraction fails (IndexError) exactly when one of the selected
    indices lies outside the vocabulary; reading the scores never fails. *)
Theorem getTopKWords_fails_iff (vocab : list string) (x : list A) (k : Z) :
  getTopKWords R vocab x k = None
  ↔ ∃ i, i ∈ top_indices R x k ∧ length vocab ≤ i.
Proof.
  unfold getTopKWords. simpl. rewrite top_pairs_scores. simpl.
  destruct (mapM (λ i, vocab !! i) (top_indices R x k)) as [ws|] eqn:Hws;
    simpl.
  - split; [done|]. intros (i & Hi & Hge).
    apply mapM_Some in Hws. apply list_elem_of_lookup in Hi as [p Hp].
    destruct (Forall2_lookup_l _ _ _ _ _ Hws Hp) as (w & _ & Hw).
    apply lookup_lt_Some in Hw. lia.
  - split; [|done]. intros _. apply mapM_None in Hws.
    apply Exists_exists in Hws as (i & Hi & Hnone).
    exists i. split; [done|]. by apply lookup_ge_None.
Qed.
End getTopKWords_shape.

Section getTopKWords_maximum.
Context {A : Type} (R : relation A) `{!∀ x y, Decision (R x y)}.
Context `{!Total R, !Transitive R}.

(** X5: for [nwords > 0] and a non-empty array, the first score returned is
    a greatest entry of the array. *)
Theorem getTopKWords_first_is_maximum (vocab : list string) (x : list A)
    (k : Z) :
  (0 < k)%Z → x ≠ [] → length x ≤ length vocab →
  ∃ s0 scores words,
    getTopKWords R vocab x k = Some (s0 :: scores, words)
    ∧ ∀ s, s ∈ x → R s s0.
Proof.
  intros Hk Hne Hlen.
  destruct (getTopKWords_result R vocab x k Hlen) as (ws & Hres & _).
  pose proof (top_pairs_length R x k Hk) as Hl.
  pose proof (top_pairs_sorted R x k) as Hsorted.
  destruct (top_pairs_split R x k) as [rest Hsplit].
  pose proof (sorted_pairs_sorted R x) as Hall. rewrite Hsplit in Hall.
  destruct (top_pairs R x k) as [|[i0 s0] tl] eqn:Htp.
  { destruct x; [done|]. simpl in Hl. lia. }
  exists s0, tl.*2, ws. split; [done|]. intros s Hs.
  apply list_elem_of_lookup in Hs as [j Hj].
  apply elem_of_enumerate in Hj. rewrite <- (sorted_pairs_perm R) in Hj.
  rewrite Hsplit in Hj. apply elem_of_app in Hj as [Hj|Hj].
  - apply StronglySorted_app in Hall as (Hall & _ & _).
    apply (Hall (j, s) (i0, s0) Hj). rewrite elem_of_reverse. by left.
  - rewrite elem_of_reverse in Hj. apply elem_of_cons in Hj as [Hj|Hj].
    + simplify_eq. by destruct (total R s0 s0).
    + apply StronglySorted_cons in Hsorted as [Hhd _].
      rewrite Forall_forall in Hhd. exact (Hhd _ Hj).
Qed.
End getTopKWords_maximum.

Lemma top_indices_nonpositive_witness :
  (-1 ≤ 0)%Z
  ∧ top_indices Z.le [5; 9; 1; 7]%Z (-1) = [1; 3; 0]
  ∧ length (top_indices Z.le [5; 9; 1; 7]%Z (-1))
    = length [5; 9; 1; 7]%Z - Z.to_nat (- -1)
  ∧ ∀ i j, i ∈ top_indices Z.le [5; 9; 1; 7]%Z (-1) →
           j < length [5; 9; 1; 7]%Z →
           j ∉ top_indices Z.le [5; 9; 1; 7]%Z (-1) →
           score_at_least Z.le [5; 9; 1; 7]%Z i j.
Proof.
  split; [lia|]. split; [by vm_compute|].
  apply (top_indices_nonpositive Z.le [5; 9; 1; 7]%Z (-1)). lia.
Defined.

Lemma top_indices_all_witness :
  (0 = 0 ∨ Z.of_nat (length [5; 9; 1]%Z) ≤ 0)%Z
  ∧ top_indices Z.le [5; 9; 1]%Z 0 = reverse (argsort Z.le [5; 9; 1]%Z)
  ∧ top_indices Z.le [5; 9; 1]%Z 0 ≡ₚ seq 0 (length [5; 9; 1]%Z).
Proof.
  assert (0 = 0 ∨ Z.of_nat (length [5; 9; 1]%Z) ≤ 0)%Z as Hk
    by (left; reflexivity).
  split; [exact Hk|]. exact (top_indices_all Z.le [5; 9; 1]%Z 0 Hk).
Defined.

Lemma getTopKWords_prefix_witness :
  (0 < 1 ≤ 3)%Z
  ∧ top_indices Z.le [5; 9; 1; 7]%Z 1
      `prefix_of` top_indices Z.le [5; 9; 1; 7]%Z 3
  ∧ [9]%Z `prefix_of` [9; 7; 5]%Z
  ∧ ["b"] `prefix_of` ["b"; "d"; "a"].
Proof.
  assert (0 < 1 ≤ 3)%Z as Hk by lia. split; [exact Hk|].
  apply (getTopKWords_prefix Z.le ["a"; "b"; "c"; "d"] [5; 9; 1; 7]%Z 1 3
           [9]%Z [9; 7; 5]%Z ["b"] ["b"; "d"; "a"] Hk);
    by vm_compute.
Defined.

Lemma getTopKWords_aligned_witness :
  getTopKWords Z.le ["a"; "b"; "c"; "d"] [5; 9; 1; 7]%Z 2
    = Some ([9; 7]%Z, ["b"; "d"])
  ∧ length [9; 7]%Z = length ["b"; "d"]
  ∧ NoDup (top_indices Z.le [5; 9; 1; 7]%Z 2)
  ∧ ∀ p, p < length [9; 7]%Z →
      ∃ i s w, top_indices Z.le [5; 9; 1; 7]%Z 2 !! p = Some i
               ∧ [9; 7]%Z !! p = Some s ∧ ["b"; "d"] !! p = Some w
               ∧ [5; 9; 1; 7]%Z !! i = Some s
               ∧ ["a"; "b"; "c"; "d"] !! i = Some w.
Proof.
  assert (getTopKWords Z.le ["a"; "b"; "c"; "d"] [5; 9; 1; 7]%Z 2
          = Some ([9; 7]%Z, ["b"; "d"])) as Hres by (by vm_compute).
  split; [exact Hres|]. exact (getTopKWords_aligned Z.le _ _ _ _ _ Hres).
Defined.

Example getTopKWords_fails_on_short_vocabulary :
  getTopKWords Z.le ["a"; "b"] [5; 9; 1; 7]%Z 2 = None
  ∧ 3 ∈ top_indices Z.le [5; 9; 1; 7]%Z 2.
Proof. split; [by vm_compute|]. vm_compute. set_solver. Qed.

Lemma getTopKWords_first_is_maximum_witness :
  (0 < 2)%Z ∧ [5; 9; 1; 7]%Z ≠ []
  ∧ length [5; 9; 1; 7]%Z ≤ length ["a"; "b"; "c"; "d"]
  ∧ ∃ s0 scores words,
      getTopKWords Z.le ["a"; "b"; "c"; "d"] [5; 9; 1; 7]%Z 2
        = Some (s0 :: scores, words)
      ∧ ∀ s, s ∈ [5; 9; 1; 7]%Z → (s ≤ s0)%Z.
Proof.
  split; [lia|]. split; [discriminate|]. split; [simpl; lia|].
  apply (getTopKWords_first_is_maximum Z.le); [lia|discriminate|simpl; lia].
Defined.

(** ** The stage on a DataFrame *)

Lemma resolver_refl (cs : bool) (a : string) : resolver cs a a = true.
Proof. unfold resolver. destruct cs; apply String.eqb_refl. Qed.

Lemma resolver_true_eq (cs : bool) (a b c : string) :
  resolver cs a b = true → resolver cs a c = resolver cs b c.
Proof.
  unfold resolver. destruct cs; intros Hab%String.eqb_eq; by rewrite Hab.
Qed.

Lemma elem_of_withColumn {A : Type} (cs : bool) (name : string)
    (data : list (Cell A)) (df : DataFrame A) (c : string * list (Cell A)) :
  c ∈ withColumn cs name data df
  ↔ c = (name, data) ∨ (c ∈ df ∧ resolver cs c.1 name = false).
Proof.
  unfold withColumn. destruct (existsb _ df) eqn:Hex.
  - apply existsb_exists in Hex as (c0 & Hin0 & Hc0).
    apply list_elem_of_In in Hin0. rewrite list_elem_of_fmap. split.
    + intros (c1 & -> & Hin1).
      destruct (resolver cs c1.1 name) eqn:Hc1; [by left|by right].
    + intros [-> | [Hin Hc]].
      * exists c0. by rewrite Hc0.
      * exists c. by rewrite Hc.
  - rewrite elem_of_app, list_elem_of_singleton. split.
    + intros [Hin | ->]; [|by left]. right. split; [done|].
      destruct (resolver cs c.1 name) eqn:Hc; [|done].
      assert (existsb (λ c, resolver cs c.1 name) df = true) as Hex'.
      { apply existsb_exists. exists c. by rewrite <- list_elem_of_In. }
      congruence.
    + intros [-> | [Hin _]]; [by right|by left].
Qed.

Lemma withColumn_other_filter {A : Type} (cs : bool) (name other : string)
    (data : list (Cell A)) (df : DataFrame A) :
  resolver cs name other = false →
  List.filter (λ c, resolver cs c.1 other) (withColumn cs name data df)
  = List.filter (λ c, resolver cs c.1 other) df.
Proof.
  intros Hno. unfold withColumn. destruct (existsb _ df).
  - induction df as [|c df IH]; [done|]. rewrite fmap_cons. simpl.
    destruct (resolver cs c.1 name) eqn:Hc; simpl.
    + rewrite (resolver_true_eq cs c.1 name other Hc), Hno. apply IH.
    + destruct (resolver cs c.1 other); by rewrite IH.
  - rewrite List.filter_app. simpl. rewrite Hno. apply app_nil_r.
Qed.

Lemma raises_elem {A : Type} (df : DataFrame A) (name : string)
    (data : list (Cell A)) :
  (name, data) ∈ df → CRaises ∈ data → raises df = true.
Proof.
  intros Hcol Hcell. unfold raises. apply existsb_exists.
  exists (name, data). split; [by apply list_elem_of_In|].
  apply existsb_exists. exists CRaises. split; [by apply list_elem_of_In|done].
Qed.

Section transform_facts.
Context {A : Type} (R : relation A) `{!∀ x y, Decision (R x y)}.
Context (narrow : A → A).

(** X8: the call of the stage fails at once on a DataFrame in which no
    column resolves to 'tfidf'.  A cell of the 'tfidf' column that is not a
    vector (a null, for instance) does not make the call fail: the call
    returns a DataFrame, and it is the save, the action that evaluates the
    cells, that fails, whatever the table name and the store. *)
Theorem TopKWords_transform_fails (cs : bool) (vocab : list string)
    (self : TopKWords) (df : DataFrame A) :
  ((∀ c, c ∈ df → resolver cs c.1 "tfidf" = false) →
   TopKWords_transform R narrow cs vocab self df = None)
  ∧ (∀ col c, resolve_col cs "tfidf" df = Some col → c ∈ col →
       (∀ v, c ≠ CVector v) →
       ∃ df', TopKWords_transform R narrow cs vocab self df = Some df'
              ∧ ∀ valid_table_name filepath store,
                  save_results valid_table_name cs filepath df' store = None).
Proof.
  unfold TopKWords_transform. split.
  - intros Hno.
    assert (resolve_col cs "tfidf" df = None) as ->; [|done].
    unfold resolve_col.
    assert (List.filter (λ c, resolver cs c.1 "tfidf") df = []) as ->;
      [|done].
    induction df as [|c df IH]; [done|]. simpl.
    rewrite (Hno c) by apply list_elem_of_here. apply IH.
    intros c' Hc'. apply Hno. by right.
  - intros col c Hcol Hin Hc. rewrite Hcol. simpl. eexists. split; [done|].
    intros valid_table_name filepath store. rewrite save_results_unfold.
    erewrite (raises_elem _ "top_words"); [by rewrite andb_false_r| |].
    + apply final_df_keeps_results; [apply withColumn_elem|].
      apply list_elem_of_further, list_elem_of_here.
    + apply list_elem_of_fmap. exists c. split; [|done].
      destruct c; try done. by destruct (Hc v).
Qed.

(** X9: on a DataFrame with exactly one 'tfidf' column, all of whose cells
    are vectors no longer than the vocabulary, the stage succeeds and the
    'top_words' column has one cell per row; the cell of each row holds the
    words that the extraction returns on the vector of that row, and its
    scores narrowed to 32-bit floats.  No cell raises. *)
Theorem TopKWords_transform_rows (cs : bool) (vocab : list string)
    (self : TopKWords) (df : DataFrame A) (col : list (Cell A)) :
  resolve_col cs "tfidf" df = Some col →
  Forall (λ c, ∃ v, c = CVector v ∧ length v ≤ length vocab) col →
  ∃ data,
    TopKWords_transform R narrow cs vocab self df
      = Some (withColumn cs "top_words" data df)
    ∧ length data = length col
    ∧ Forall2 (λ c r, ∃ v scores words,
                 c = CVector v ∧ r = CTopWords (narrow <$> scores) words
                 ∧ getTopKWords R vocab v (nwords self)
                   = Some (scores, words)) col data.
Proof.
  intros Hcol Hvec. unfold TopKWords_transform. rewrite Hcol. simpl.
  eexists. split; [done|]. split; [by rewrite length_fmap|].
  apply Forall2_fmap_r, Forall_Forall2_diag.
  eapply Forall_impl; [exact Hvec|]. intros c (v & -> & Hlen).
  destruct (getTopKWords_result R vocab v (nwords self) Hlen)
    as (ws & Hres & _).
  exists v, (top_pairs R v (nwords self)).*2, ws. simpl. by rewrite Hres.
Qed.

(** X10: when the stage succeeds, the columns of its result are the new
    'top_words' column together with the columns of the input that
    'top_words' does not resolve to, and the 'tfidf' column is read from the
    result exactly as from the input. *)
Theorem TopKWords_transform_frame (cs : bool) (vocab : list string)
    (self : TopKWords) (df df' : DataFrame A) :
  TopKWords_transform R narrow cs vocab self df = Some df' →
  ∃ data,
    (∀ c, c ∈ df' ↔ c = ("top_words", data)
                    ∨ (c ∈ df ∧ resolver cs c.1 "top_words" = false))
    ∧ resolve_col cs "tfidf" df' = resolve_col cs "tfidf" df.
Proof.
  unfold TopKWords_transform. intros Hrun.
  destruct (resolve_col cs "tfidf" df) as [col|] eqn:Hcol; [|done].
  simpl in Hrun. injection Hrun as <-. eexists. split.
  - intros c. apply elem_of_withColumn.
  - rewrite <- Hcol. unfold resolve_col.
    rewrite withColumn_other_filter; [done|by destruct cs].
Qed.
End transform_facts.

Lemma TopKWords_transform_fails_witness :
  TopKWords_transform Z.le id false ["u"; "v"; "w"]
    (TopKWords_init None None (Some "tfidf") (Some "top_words") 2)
    [("subreddit", [CString "aww"])]
  = None
  ∧ ∃ df', TopKWords_transform Z.le id false ["u"; "v"; "w"]
             (TopKWords_init None None (Some "tfidf") (Some "top_words") 2)
             [("subreddit", [CString "aww"]); ("tfidf", [CNull])]
           = Some df'
           ∧ ∀ valid_table_name filepath store,
               save_results valid_table_name false filepath df' store = None.
Proof.
  split.
  - apply (proj1 (TopKWords_transform_fails Z.le id false ["u"; "v"; "w"]
             (TopKWords_init None None (Some "tfidf") (Some "top_words") 2)
             [("subreddit", [CString "aww"])])).
    intros c Hc. apply list_elem_of_singleton in Hc. by subst c.
  - apply (proj2 (TopKWords_transform_fails Z.le id false ["u"; "v"; "w"]
             (TopKWords_init None None (Some "tfidf") (Some "top_words") 2)
             [("subreddit", [CString "aww"]); ("tfidf", [CNull])])
             [CNull] CNull);
      [reflexivity|apply list_elem_of_here|discriminate].
Defined.

Lemma TopKWords_transform_rows_witness :
  ∃ data,
    TopKWords_transform Z.le id false ["u"; "v"; "w"]
      (TopKWords_init None None (Some "tfidf") (Some "top_words") 2)
      [("subreddit", [CString "aww"; CString "news"]);
       ("tfidf", [CVector [1; 3; 2]%Z; CVector [0; 0; 5]%Z])]
      = Some (withColumn false "top_words" data
                [("subreddit", [CString "aww"; CString "news"]);
                 ("tfidf", [CVector [1; 3; 2]%Z; CVector [0; 0; 5]%Z])])
    ∧ length data = 2
    ∧ Forall2 (λ c r, ∃ v scores words,
                 c = CVector v ∧ r = CTopWords (id <$> scores) words
                 ∧ getTopKWords Z.le ["u"; "v"; "w"] v 2
                   = Some (scores, words))
        [CVector [1; 3; 2]%Z; CVector [0; 0; 5]%Z] data.
Proof.
  apply (TopKWords_transform_rows Z.le id false ["u"; "v"; "w"]
           (TopKWords_init None None (Some "tfidf") (Some "top_words") 2)
           _ [CVector [1; 3; 2]%Z; CVector [0; 0; 5]%Z]); [reflexivity|].
  repeat constructor; eexists; (split; [reflexivity|simpl; lia]).
Defined.

Lemma TopKWords_transform_frame_witness :
  ∃ data,
    (∀ c, c ∈ [("subreddit", [CString "aww"]);
               ("tfidf", [CVector [1; 3; 2]%Z]);
               ("top_words", [CTopWords [3; 2]%Z ["v"; "w"]])]
          ↔ c = ("top_words", data)
            ∨ (c ∈ [("subreddit", [CString "aww"]);
                    ("tfidf", [CVector [1; 3; 2]%Z])]
               ∧ resolver false c.1 "top_words" = false))
    ∧ resolve_col false "tfidf"
        [("subreddit", [CString "aww"]);
         ("tfidf", [CVector [1; 3; 2]%Z]);
         ("top_words", [CTopWords [3; 2]%Z ["v"; "w"]])]
      = resolve_col false "tfidf"
          [("subreddit", [CString "aww"]); ("tfidf", [CVector [1; 3; 2]%Z])].
Proof.
  apply (TopKWords_transform_frame Z.le id false ["u"; "v"; "w"]
           (TopKWords_init None None (Some "tfidf") (Some "top_words") 2)).
  by vm_compute.
Defined.

(** ** More on the command line *)

Lemma parser_dest_inj (a a' : Argument) :
  a ∈ parser → a' ∈ parser → arg_dest a = arg_dest a' → a = a'.
Proof.
  unfold parser. rewrite !elem_of_cons, !elem_of_nil.
  intros [->|[->|[->|[->|[->|[->|[]]]]]]] [->|[->|[->|[->|[->|[->|[]]]]]]];
    simpl; intros Heq; try reflexivity; discriminate.
Qed.

Lemma parser_flag_inj (a a' : Argument) :
  a ∈ parser → a' ∈ parser → arg_flag a = arg_flag a' → a = a'.
Proof.
  unfold parser. rewrite !elem_of_cons, !elem_of_nil.
  intros [->|[->|[->|[->|[->|[->|[]]]]]]] [->|[->|[->|[->|[->|[->|[]]]]]]];
    simpl; intros Heq; try reflexivity; discriminate.
Qed.

Lemma store_option_Some (ps : list Argument) (ns ns' : gmap string ArgValue)
    (o : string * ArgValue) :
  store_option ps ns o = Some ns' ↔
  ∃ a, a ∈ ps ∧ find_argument ps o.1 = Some a ∧ arg_flag a = o.1
       ∧ has_type (arg_type a) o.2 = true ∧ ns' = <[arg_dest a := o.2]> ns.
Proof.
  unfold store_option. split.
  - destruct (find_argument ps o.1) as [a|] eqn:Hfind; [|done]. simpl.
    destruct (has_type (arg_type a) o.2) eqn:Hty; [|done].
    intros [= <-]. exists a.
    by destruct (find_argument_Some _ _ _ Hfind).
  - intros (a & _ & Hfind & _ & Hty & ->). rewrite Hfind. simpl.
    by rewrite Hty.
Qed.

(** X11: a command line parses only if every supplied flag is one of the
    six flags of the parser and its value has the type declared for that
    flag; any other flag, or an ill-typed value, makes parsing fail. *)
Theorem parse_args_accepts_only_declared (argv : list (string * ArgValue))
    (ns : gmap string ArgValue) :
  parse_args argv = Some ns →
  ∀ o, o ∈ argv →
    ∃ a, a ∈ parser ∧ arg_flag a = o.1 ∧ has_type (arg_type a) o.2 = true.
Proof.
  unfold parse_args. generalize (defaults parser). intros ns0 Hrun.
  revert ns0 Hrun. induction argv as [|o' argv IH]; intros ns0 Hrun o Hin.
  { by apply elem_of_nil in Hin. }
  simpl in Hrun.
  destruct (store_option parser ns0 o') as [ns1|] eqn:Hst; [|done].
  simpl in Hrun. apply elem_of_cons in Hin as [->|Hin].
  - apply store_option_Some in Hst as (a & Ha & _ & Hfl & Hty & _).
    by exists a.
  - by apply (IH ns1).
Qed.

Lemma parse_args_accepts_only_declared_witness :
  parse_args [("--nwords", VInt 3); ("--mindf", VFloat 2)]
    = Some (<["mindf" := VFloat 2]>
              (<["nwords" := VInt 3]> (defaults parser)))
  ∧ ∀ o, o ∈ [("--nwords", VInt 3); ("--mindf", VFloat 2)] →
      ∃ a, a ∈ parser ∧ arg_flag a = o.1
           ∧ has_type (arg_type a) o.2 = true.
Proof.
  assert (parse_args [("--nwords", VInt 3); ("--mindf", VFloat 2)]
          = Some (<["mindf" := VFloat 2]>
                    (<["nwords" := VInt 3]> (defaults parser)))) as Hrun
    by reflexivity.
  split; [exact Hrun|]. exact (parse_args_accepts_only_declared _ _ Hrun).
Defined.

(** The invocation given in the module docstring, with [--filename], and an
    ill-typed value are both rejected. *)
Example parse_args_rejects :
  parse_args [("--filename", VStr "RC_2015-01")] = None
  ∧ parse_args [("--nwords", VStr "ten")] = None.
Proof. split; reflexivity. Qed.

Lemma last_occurrence (flag : string) (argv : list (string * ArgValue)) :
  flag ∈ argv.*1 →
  ∃ argv1 v argv2, argv = (argv1 ++ (flag, v) :: argv2)%list
                   ∧ flag ∉ argv2.*1.
Proof.
  induction argv as [|[f v] argv IH]; intros Hin.
  { by apply elem_of_nil in Hin. }
  destruct (decide (flag ∈ argv.*1)) as [Hlater|Hnot].
  - destruct (IH Hlater) as (argv1 & v' & argv2 & -> & Hno).
    by exists ((f, v) :: argv1), v', argv2.
  - rewrite fmap_cons in Hin. apply elem_of_cons in Hin as [Heq|Hin]; [|done].
    simpl in Heq. subst f. by exists [], v, argv.
Qed.

Lemma parse_args_last_value (argv1 argv2 : list (string * ArgValue))
    (flag : string) (v : ArgValue) (ns : gmap string ArgValue) (a : Argument) :
  parse_args (argv1 ++ (flag, v) :: argv2) = Some ns →
  flag ∉ argv2.*1 → a ∈ parser → arg_flag a = flag →
  ns !! arg_dest a = Some v ∧ has_type (arg_type a) v = true.
Proof.
  unfold parse_args. rewrite store_options_app. intros Hrun Hno Ha Hflag.
  destruct (store_options parser (defaults parser) argv1) as [ns1|]; [|done].
  simpl in Hrun.
  destruct (store_option parser ns1 (flag, v)) as [ns2|] eqn:Hst; [|done].
  simpl in Hrun.
  apply store_option_Some in Hst as (a' & Ha' & _ & Hfl' & Hty & ->).
  simpl in Hfl', Hty.
  assert (a' = a) as -> by (apply parser_flag_inj; congruence).
  split; [|done].
  rewrite (store_options_untouched parser (arg_dest a) argv2
             (<[arg_dest a := v]> ns1) ns);
    [apply lookup_insert_eq| |done].
  intros a'' Ha'' Hsup Hdest. apply Hno.
  by rewrite <- Hflag, <- (parser_dest_inj a'' a Ha'' Ha Hdest).
Qed.

(** X12: when a flag is supplied several times the last occurrence wins:
    after parsing, the destination of the flag holds the value of its last
    occurrence on the command line. *)
Theorem parse_args_last_wins (argv1 argv2 : list (string * ArgValue))
    (flag : string) (v : ArgValue) (ns : gmap string ArgValue) (a : Argument) :
  parse_args (argv1 ++ (flag, v) :: argv2) = Some ns →
  flag ∉ argv2.*1 → a ∈ parser → arg_flag a = flag →
  ns !! arg_dest a = Some v.
Proof.
  intros Hrun Hno Ha Hflag.
  by destruct (parse_args_last_value _ _ _ _ _ _ Hrun Hno Ha Hflag).
Qed.

Lemma parse_args_last_wins_witness :
  parse_args ([("--nwords", VInt 3)] ++ ("--nwords", VInt 7)
                :: [("--mindf", VFloat 2)])
    = Some (<["mindf" := VFloat 2]>
              (<["nwords" := VInt 7]>
                 (<["nwords" := VInt 3]> (defaults parser))))
  ∧ <["mindf" := VFloat 2]>
      (<["nwords" := VInt 7]> (<["nwords" := VInt 3]> (defaults parser)))
    !! "nwords" = Some (VInt 7).
Proof.
  assert (parse_args ([("--nwords", VInt 3)] ++ ("--nwords", VInt 7)
                        :: [("--mindf", VFloat 2)])
          = Some (<["mindf" := VFloat 2]>
                    (<["nwords" := VInt 7]>
                       (<["nwords" := VInt 3]> (defaults parser))))) as Hrun
    by reflexivity.
  split; [exact Hrun|].
  apply (parse_args_last_wins _ _ "--nwords" (VInt 7) _
           {| arg_flag := "--nwords"; arg_dest := "nwords";
              arg_type := TInt; arg_default := VInt 10 |} Hrun).
  - simpl. apply not_elem_of_cons. split; [discriminate|apply not_elem_of_nil].
  - unfold parser. do 2 apply list_elem_of_further. apply list_elem_of_here.
  - reflexivity.
Defined.

Ltac in_list :=
  repeat first [apply list_elem_of_here | apply list_elem_of_further].

Lemma defaults_lookup (a : Argument) :
  a ∈ parser → defaults parser !! arg_dest a = Some (arg_default a).
Proof.
  unfold parser at 1. rewrite !elem_of_cons, elem_of_nil.
  intros [->|[->|[->|[->|[->|[->|[]]]]]]]; reflexivity.
Qed.

Lemma store_options_typed (argv : list (string * ArgValue))
    (ns0 ns : gmap string ArgValue) :
  store_options parser ns0 argv = Some ns →
  (∀ a, a ∈ parser →
     ∃ v, ns0 !! arg_dest a = Some v
          ∧ (v = arg_default a ∨ has_type (arg_type a) v = true)) →
  (∀ a, a ∈ parser →
     ∃ v, ns !! arg_dest a = Some v
          ∧ (v = arg_default a ∨ has_type (arg_type a) v = true))
  ∧ dom ns = dom ns0.
Proof.
  revert ns0. induction argv as [|o argv IH]; intros ns0 Hrun Hinv.
  { simpl in Hrun. by injection Hrun as <-. }
  simpl in Hrun.
  destruct (store_option parser ns0 o) as [ns1|] eqn:Hst; [|done].
  simpl in Hrun.
  apply store_option_Some in Hst as (a' & Ha' & _ & _ & Hty & ->).
  destruct (IH _ Hrun) as [Hinv' Hdom].
  - intros a Ha. destruct (decide (arg_dest a' = arg_dest a)) as [Heq|Hne].
    + rewrite Heq, lookup_insert_eq. exists o.2. split; [done|]. right.
      by rewrite <- (parser_dest_inj a' a Ha' Ha Heq).
    + rewrite lookup_insert_ne by done. by apply Hinv.
  - split; [done|]. rewrite Hdom, dom_insert_L.
    destruct (Hinv a' Ha') as (v & Hv & _).
    apply (elem_of_dom_2 (D := gset string)) in Hv.
    apply subseteq_union_1_L. by apply singleton_subseteq_l.
Qed.

(** X13: after any command line that parses, the namespace binds exactly
    the six destinations of the parser; minlength, nwords, nsubreddits and
    vocabsize hold integers, mindf holds a float, and filepath holds either
    [None] or a string. *)
Theorem parse_args_typed (argv : list (string * ArgValue))
    (ns : gmap string ArgValue) :
  parse_args argv = Some ns →
  dom ns = list_to_set ["filepath"; "minlength"; "nwords"; "nsubreddits";
                        "mindf"; "vocabsize"]
  ∧ (ns !! "filepath" = Some VNone ∨ ∃ s, ns !! "filepath" = Some (VStr s))
  ∧ (∃ z, ns !! "minlength" = Some (VInt z))
  ∧ (∃ z, ns !! "nwords" = Some (VInt z))
  ∧ (∃ z, ns !! "nsubreddits" = Some (VInt z))
  ∧ (∃ q, ns !! "mindf" = Some (VFloat q))
  ∧ (∃ z, ns !! "vocabsize" = Some (VInt z)).
Proof.
  intros Hrun. destruct (store_options_typed argv _ ns Hrun) as [Hinv Hdom].
  { intros a Ha. exists (arg_default a). split; [|by left].
    by apply defaults_lookup. }
  split.
  { rewrite Hdom. unfold defaults. simpl.
    rewrite !dom_insert_L, dom_empty_L. clear. set_solver. }
  assert (∀ a, a ∈ parser →
            ∃ v, ns !! arg_dest a = Some v
                 ∧ (v = arg_default a ∨ has_type (arg_type a) v = true))
    as Hall by done.
  unfold parser in Hall.
  repeat split.
  - destruct (Hall {| arg_flag := "--filepath"; arg_dest := "filepath";
                      arg_type := TStr; arg_default := VNone |})
      as (v & Hv & [->|Hty]); [in_list|by left|].
    right. destruct v; try done. by exists s.
  - destruct (Hall {| arg_flag := "--minlength"; arg_dest := "minlength";
                      arg_type := TInt; arg_default := VInt 50000 |})
      as (v & Hv & [->|Hty]); [in_list|by eexists|].
    destruct v; try done. by exists z.
  - destruct (Hall {| arg_flag := "--nwords"; arg_dest := "nwords";
                      arg_type := TInt; arg_default := VInt 10 |})
      as (v & Hv & [->|Hty]); [in_list|by eexists|].
    destruct v; try done. by exists z.
  - destruct (Hall {| arg_flag := "--nsubreddits"; arg_dest := "nsubreddits";
                      arg_type := TInt; arg_default := VInt 10 |})
      as (v & Hv & [->|Hty]); [in_list|by eexists|].
    destruct v; try done. by exists z.
  - destruct (Hall {| arg_flag := "--mindf"; arg_dest := "mindf";
                      arg_type := TFloat; arg_default := VFloat 1 |})
      as (v & Hv & [->|Hty]); [in_list|by eexists|].
    destruct v; try done. by exists q.
  - destruct (Hall {| arg_flag := "--vocabsize"; arg_dest := "vocabsize";
                      arg_type := TInt; arg_default := VInt 20000 |})
      as (v & Hv & [->|Hty]); [in_list|by eexists|].
    destruct v; try done. by exists z.
Qed.

(** X14: after any command line that parses, the name of the input file,
    [args.filepath + '.txt'], can be formed exactly when [--filepath] was
    supplied; without it [args.filepath] is [None] and the driver fails
    before reading any data. *)
Theorem input_file_needs_filepath (argv : list (string * ArgValue))
    (ns : gmap string ArgValue) :
  parse_args argv = Some ns →
  (is_Some (input_file ns) ↔ "--filepath" ∈ argv.*1)
  ∧ ("--filepath" ∉ argv.*1 → ns !! "filepath" = Some VNone).
Proof.
  intros Hrun.
  assert ("--filepath" ∉ argv.*1 → ns !! "filepath" = Some VNone) as Hnone.
  { intros Hno. by rewrite (parse_args_default argv ns "filepath" Hrun Hno). }
  split; [|done]. unfold input_file. split.
  - intros Hsome. destruct (decide ("--filepath" ∈ argv.*1)) as [|Hno]; [done|].
    rewrite (Hnone Hno) in Hsome. by destruct Hsome.
  - intros Hin.
    destruct (last_occurrence _ _ Hin) as (argv1 & v & argv2 & -> & Hno).
    destruct (parse_args_last_value argv1 argv2 "--filepath" v ns
                {| arg_flag := "--filepath"; arg_dest := "filepath";
                   arg_type := TStr; arg_default := VNone |} Hrun Hno)
      as [Hv Hty]; [unfold parser; apply list_elem_of_here|done|].
    simpl in Hv, Hty. rewrite Hv. by destruct v.
Qed.

Lemma parse_args_typed_witness :
  parse_args [("--filepath", VStr "data/RC_2015-01"); ("--nwords", VInt 0)]
    = Some (<["nwords" := VInt 0]>
              (<["filepath" := VStr "data/RC_2015-01"]> (defaults parser)))
  ∧ (∃ z, <["nwords" := VInt 0]>
            (<["filepath" := VStr "data/RC_2015-01"]> (defaults parser))
          !! "nwords" = Some (VInt z))
  ∧ (∃ q, <["nwords" := VInt 0]>
            (<["filepath" := VStr "data/RC_2015-01"]> (defaults parser))
          !! "mindf" = Some (VFloat q)).
Proof.
  assert (parse_args
            [("--filepath", VStr "data/RC_2015-01"); ("--nwords", VInt 0)]
          = Some (<["nwords" := VInt 0]>
                    (<["filepath" := VStr "data/RC_2015-01"]>
                       (defaults parser)))) as Hrun by reflexivity.
  split; [exact Hrun|].
  destruct (parse_args_typed _ _ Hrun) as (_ & _ & _ & Hn & _ & Hm & _).
  split; [exact Hn|exact Hm].
Defined.

Lemma input_file_needs_filepath_witness :
  parse_args [("--nwords", VInt 3)]
    = Some (<["nwords" := VInt 3]> (defaults parser))
  ∧ ("--filepath" ∉ [("--nwords", VInt 3)].*1)
  ∧ (is_Some (input_file (<["nwords" := VInt 3]> (defaults parser)))
     → False).
Proof.
  assert (parse_args [("--nwords", VInt 3)]
          = Some (<["nwords" := VInt 3]> (defaults parser))) as Hrun
    by reflexivity.
  assert ("--filepath" ∉ [("--nwords", VInt 3)].*1) as Hno.
  { simpl. apply not_elem_of_cons. split; [discriminate|apply not_elem_of_nil]. }
  split; [exact Hrun|]. split; [exact Hno|].
  destruct (input_file_needs_filepath _ _ Hrun) as [Hiff _].
  intros Hsome. apply Hno, Hiff, Hsome.
Defined.

Example input_file_example :
  parse_args [("--filepath", VStr "data/RC_2015-01")] ≫= input_file
  = Some "data/RC_2015-01.txt".
Proof. reflexivity. Qed.

(** ** More on the table name *)

Lemma translate_chars (s : string) (c : ascii) :
  c ∈ list_ascii_of_string (delete_hyphens_underscores s) ↔
  c ∈ list_ascii_of_string s ∧ c ≠ "-"%char ∧ c ≠ "_"%char.
Proof.
  induction s as [|d s IH]; simpl.
  { rewrite elem_of_nil. tauto. }
  destruct (Ascii.eqb_spec d "-") as [->|Hh]; simpl.
  { rewrite IH, elem_of_cons. split; [tauto|]. intros [[->|Hin] [Hc1 Hc2]];
      [done|tauto]. }
  destruct (Ascii.eqb_spec d "_") as [->|Hu]; simpl.
  { rewrite IH, elem_of_cons. split; [tauto|]. intros [[->|Hin] [Hc1 Hc2]];
      [done|tauto]. }
  rewrite !elem_of_cons, IH. split.
  - intros [->|Hin]; tauto.
  - intros [[->|Hin] Hc]; tauto.
Qed.

Lemma list_ascii_of_substring (n m : nat) (s : string) :
  list_ascii_of_string (substring n m s)
  = take m (drop n (list_ascii_of_string s)).
Proof.
  revert n m. induction s as [|c s IH]; intros n m; simpl.
  { destruct n, m; simpl; by rewrite ?take_nil. }
  destruct n as [|n]; simpl.
  - destruct m as [|m]; simpl; [done|]. by rewrite IH.
  - apply IH.
Qed.

(** [rfind_from] returns [found] when the character does not occur, and
    otherwise the offset of its last occurrence. *)
Lemma rfind_from_spec (c : ascii) (s : string) (i found : Z) :
  ((c ∉ list_ascii_of_string s) ∧ rfind_from c s i found = found)
  ∨ (∃ j, rfind_from c s i found = (i + Z.of_nat j)%Z
          ∧ list_ascii_of_string s !! j = Some c
          ∧ c ∉ drop (S j) (list_ascii_of_string s)).
Proof.
  revert i found. induction s as [|d s IH]; intros i found; simpl.
  { left. split; [apply not_elem_of_nil|done]. }
  destruct (IH (i + 1)%Z (if Ascii.eqb d c then i else found))
    as [[Hno Hr]|(j & Hr & Hj & Hlast)].
  - destruct (Ascii.eqb_spec d c) as [->|Hne].
    + right. exists 0. rewrite Hr. split; [lia|]. by split.
    + left. split; [|done]. apply not_elem_of_cons. split; [congruence|done].
  - right. exists (S j). rewrite Hr. split; [lia|]. by split.
Qed.

Lemma length_list_ascii_of_string (s : string) :
  length (list_ascii_of_string s) = String.length s.
Proof. induction s as [|c s IH]; simpl; [done|]. by rewrite IH. Qed.

Lemma rfind_lower_bound (c : ascii) (s : string) : (-1 ≤ rfind c s)%Z.
Proof.
  unfold rfind.
  destruct (rfind_from_spec c s 0 (-1)) as [[_ ->]|(j & -> & _)]; lia.
Qed.

(** The basename is the part of the path after its last '/'. *)
Lemma basename_chars (p : string) :
  ("/"%char ∉ list_ascii_of_string (basename p))
  ∧ ∃ n, list_ascii_of_string (basename p)
         = drop n (list_ascii_of_string p).
Proof.
  unfold basename, rfind. rewrite list_ascii_of_substring.
  rewrite <- length_list_ascii_of_string.
  destruct (rfind_from_spec "/" p 0 (-1)) as [[Hno ->]|(j & -> & Hj & Hlast)].
  - simpl. rewrite drop_0, Nat.sub_0_r, firstn_all. split; [done|].
    exists 0. by rewrite drop_0.
  - replace (Z.to_nat (0 + Z.of_nat j + 1)) with (S j) by lia.
    rewrite take_ge by (rewrite length_drop; lia).
    split; [done|]. by exists (S j).
Qed.

Lemma rfind_from_shift (c : ascii) (s : string) (i found : Z) :
  rfind_from c s (i + 1) (found + 1) = (rfind_from c s i found + 1)%Z.
Proof.
  revert i found. induction s as [|d s IH]; intros i found; simpl; [done|].
  rewrite <- IH. by destruct (Ascii.eqb d c).
Qed.

Lemma basename_cons_sep (s : string) : basename (String "/" s) = basename s.
Proof.
  pose proof (rfind_lower_bound "/" s) as Hlb.
  assert (rfind "/" (String "/" s) = rfind "/" s + 1)%Z as Hr.
  { unfold rfind. simpl. exact (rfind_from_shift "/" s 0 (-1)). }
  unfold basename. rewrite Hr.
  replace (Z.to_nat (rfind "/" s + 1 + 1))
    with (S (Z.to_nat (rfind "/" s + 1))) by lia.
  done.
Qed.

Lemma basename_sep_app (s : string) : basename ("/" ++ s) = basename s.
Proof. exact (basename_cons_sep s). Qed.

Lemma basename_sep2_app (s : string) : basename ("//" ++ s) = basename s.
Proof.
  change ("//" ++ s) with (String "/" (String "/" s)).
  by rewrite !basename_cons_sep.
Qed.

Lemma split_nonempty (sep : ascii) (s : string) : split sep s ≠ [].
Proof.
  induction s as [|c s IH]; simpl; [done|].
  destruct (Ascii.eqb c sep); [done|]. by destruct (split sep s).
Qed.

Lemma split_app_sep (sep : ascii) (s : string) :
  split sep (s ++ String sep "") = (split sep s ++ [""])%list.
Proof.
  induction s as [|c s IH]; simpl.
  { by rewrite Ascii.eqb_refl. }
  destruct (Ascii.eqb c sep); [by rewrite IH|].
  rewrite IH. pose proof (split_nonempty sep s) as Hne.
  by destruct (split sep s).
Qed.

Lemma normpath_step_empty (n : nat) (acc : list string) :
  normpath_step n acc "" = acc.
Proof. unfold normpath_step. by rewrite decide_True by (by left). Qed.

Lemma normpath_step_nonzero (n m : nat) (comps acc : list string) :
  fold_left (normpath_step (S n)) comps acc
  = fold_left (normpath_step (S m)) comps acc.
Proof.
  revert acc. induction comps as [|comp comps IH]; intros acc; simpl; [done|].
  rewrite IH. f_equal. unfold normpath_step.
  destruct (decide (comp = "" ∨ comp = ".")); [done|].
  repeat case_decide; try done; exfalso; intuition lia.
Qed.

Lemma prefix_sep_cons (c : ascii) (r : string) :
  String.prefix "/" (String c r) = if ascii_dec "/" c then true else false.
Proof.
  unfold String.prefix. destruct (ascii_dec "/" c); [by destruct r|done].
Qed.

Lemma normpath_nonempty (p : string) :
  p ≠ "" →
  ∃ initial_slashes,
    (initial_slashes = 0 ↔ String.prefix "/" p = false)
    ∧ normpath p
      = let joined :=
          String.concat "/"
            (fold_left (normpath_step initial_slashes) (split "/" p) []) in
        let path' :=
          match initial_slashes with
          | 0 => joined
          | 1 => "/" ++ joined
          | _ => "//" ++ joined
          end in
        if decide (path' = "") then "." else path'.
Proof.
  intros Hne. unfold normpath. rewrite decide_False by done.
  eexists. split; [|reflexivity].
  destruct (String.prefix "/" p); [|done].
  split; [|done]. by destruct (_ && _).
Qed.

Lemma basename_normpath_trailing_sep (p : string) :
  p ≠ "" → basename (normpath (p ++ "/")) = basename (normpath p).
Proof.
  intros Hne.
  assert (p ++ "/" ≠ "") as Hne' by (by destruct p).
  assert (String.prefix "/" (p ++ "/") = String.prefix "/" p) as Hpre.
  { destruct p as [|c p]; [done|].
    change (String c p ++ "/") with (String c (p ++ "/")).
    by rewrite !prefix_sep_cons. }
  destruct (normpath_nonempty _ Hne') as (is1 & His1 & ->).
  destruct (normpath_nonempty _ Hne) as (is2 & His2 & ->).
  rewrite Hpre in His1. cbv zeta.
  change (p ++ "/") with (p ++ String "/"%char "").
  rewrite split_app_sep, fold_left_app. cbn [fold_left].
  rewrite normpath_step_empty.
  destruct is1 as [|n1], is2 as [|n2].
  - done.
  - destruct His1 as [His1 _]. destruct His2 as [_ His2].
    by specialize (His2 (His1 eq_refl)).
  - destruct His2 as [His2 _]. destruct His1 as [_ His1].
    by specialize (His1 (His2 eq_refl)).
  - rewrite (normpath_step_nonzero n1 n2).
    destruct n1 as [|n1], n2 as [|n2]; simpl;
      by rewrite ?basename_sep_app, ?basename_sep2_app.
Qed.

(** X15: whatever the input path, the table name contains no '-', no '_'
    and no '/'. *)
Theorem table_name_chars (filepath : string) :
  Forall (λ c, c ≠ "-"%char ∧ c ≠ "_"%char ∧ c ≠ "/"%char)
    (list_ascii_of_string (table_name filepath)).
Proof.
  apply Forall_forall. intros c. unfold table_name. simpl.
  rewrite translate_trans_table, translate_chars. intros (Hin & Hh & Hu).
  split; [done|]. split; [done|]. intros ->.
  by destruct (basename_chars (normpath filepath)) as [Hno _].
Qed.

(** X16: a '/' at the end of a non-empty input path does not change the
    table name. *)
Theorem table_name_trailing_slash (filepath : string) :
  filepath ≠ "" → table_name (filepath ++ "/") = table_name filepath.
Proof.
  intros Hne. unfold table_name. simpl.
  by rewrite basename_normpath_trailing_sep.
Qed.

Lemma table_name_trailing_slash_witness :
  "data/RC_2015-01" ≠ ""
  ∧ table_name ("data/RC_2015-01" ++ "/") = table_name "data/RC_2015-01".
Proof.
  split; [discriminate|].
  apply table_name_trailing_slash. discriminate.
Defined.

(** ** More on saving *)

(** X17: of two runs that save under the same table name (the same input
    path, or two paths whose names collide), the second erases the first:
    the store after both runs is the store that the second run alone would
    have left. *)
Theorem save_results_second_run_wins {A : Type}
    (valid_table_name : string → bool) (cs : bool)
    (path1 path2 : string) (df1 df2 : DataFrame A)
    (store store1 : gmap string (DataFrame A)) :
  table_name path1 = table_name path2 →
  save_results valid_table_name cs path1 df1 store = Some store1 →
  save_results valid_table_name cs path2 df2 store1
  = save_results valid_table_name cs path2 df2 store.
Proof.
  intros Hname Hrun1. rewrite save_results_unfold in Hrun1.
  destruct (_ && _) in Hrun1; [|done].
  injection Hrun1 as <-. rewrite !save_results_unfold, Hname.
  destruct (_ && _); [|done]. by rewrite insert_insert_eq.
Qed.

Lemma save_results_second_run_wins_witness :
  table_name "data/RC_2015-01" = table_name "old/RC-2015_01"
  ∧ save_results (λ name, String.eqb name "RC201501") false "old/RC-2015_01"
      [("subreddit", [CString "news"])]
      (<["rc201501" := [("subreddit", [@CString Z "aww"])]]> ∅)
    = save_results (λ name, String.eqb name "RC201501") false
        "old/RC-2015_01" [("subreddit", [CString "news"])] ∅.
Proof.
  assert (table_name "data/RC_2015-01" = table_name "old/RC-2015_01") as Hname
    by reflexivity.
  split; [exact Hname|].
  apply (save_results_second_run_wins _ false "data/RC_2015-01"
           "old/RC-2015_01" [("subreddit", [CString "aww"])] _ ∅ _ Hname).
  reflexivity.
Defined.

(** ** More on the dropped columns *)

Lemma filter_idempotent {X : Type} (f : X → bool) (l : list X) :
  List.filter f (List.filter f l) = List.filter f l.
Proof.
  induction l as [|x l IH]; simpl; [done|].
  destruct (f x) eqn:Hx; simpl; [|done]. by rewrite Hx, IH.
Qed.

(** X19: dropping the six columns a second time changes nothing, and no
    column of the final DataFrame is named body, cleaned, tf, tokens,
    swr_tokens or norm. *)
Theorem final_df_idempotent {A : Type} (cs : bool) (df : DataFrame A) :
  final_df cs (final_df cs df) = final_df cs df
  ∧ Forall (λ c, c.1 ∉ ["body"; "cleaned"; "tf"; "tokens"; "swr_tokens";
                        "norm"]) (final_df cs df).
Proof.
  split; [apply filter_idempotent|].
  apply Forall_forall. intros c [_ Hc]%elem_of_drop_columns Hin.
  specialize (Hc c.1 Hin). by rewrite resolver_refl in Hc.
Qed.

(** ** Order of the options *)

Lemma store_option_None_any (ns ns' : gmap string ArgValue)
    (o : string * ArgValue) :
  store_option parser ns o = None → store_option parser ns' o = None.
Proof.
  unfold store_option. destruct (find_argument parser o.1) as [a|]; [|done].
  simpl. by destruct (has_type (arg_type a) o.2).
Qed.

Lemma store_option_swap (ns : gmap string ArgValue)
    (o1 o2 : string * ArgValue) :
  o1.1 ≠ o2.1 →
  store_option parser ns o1 ≫= (λ ns1, store_option parser ns1 o2)
  = store_option parser ns o2 ≫= (λ ns2, store_option parser ns2 o1).
Proof.
  intros Hne.
  destruct (store_option parser ns o1) as [ns1|] eqn:H1;
    destruct (store_option parser ns o2) as [ns2|] eqn:H2; simpl.
  - apply store_option_Some in H1 as (a1 & Ha1 & Hf1 & Hfl1 & Hty1 & ->).
    apply store_option_Some in H2 as (a2 & Ha2 & Hf2 & Hfl2 & Hty2 & ->).
    assert (arg_dest a1 ≠ arg_dest a2) as Hdest.
    { intros Heq. apply Hne.
      by rewrite <- Hfl1, <- Hfl2, (parser_dest_inj a1 a2 Ha1 Ha2 Heq). }
    transitivity (Some (<[arg_dest a2 := o2.2]> (<[arg_dest a1 := o1.2]> ns))).
    + apply store_option_Some. by exists a2.
    + rewrite insert_insert_ne by done. symmetry.
      apply store_option_Some. by exists a1.
  - by apply store_option_None_any with (ns' := ns1) in H2.
  - by apply store_option_None_any with (ns' := ns2) in H1.
  - done.
Qed.

Lemma store_options_permutation (argv argv' : list (string * ArgValue))
    (ns : gmap string ArgValue) :
  argv ≡ₚ argv' → NoDup argv.*1 →
  store_options parser ns argv = store_options parser ns argv'.
Proof.
  intros Hperm. revert ns.
  induction Hperm as [|o l l' Hperm IH|o1 o2 l|l l' l'' Hp1 IH1 Hp2 IH2];
    intros ns Hnd.
  - done.
  - simpl. rewrite fmap_cons in Hnd. apply NoDup_cons in Hnd as [_ Hnd].
    destruct (store_option parser ns o) as [ns1|]; simpl; [by apply IH|done].
  - rewrite !fmap_cons in Hnd. apply NoDup_cons in Hnd as [Hne _].
    apply not_elem_of_cons in Hne as [Hne _].
    change (store_options parser ns (o1 :: o2 :: l))
      with (store_option parser ns o1 ≫= λ ns1,
              store_option parser ns1 o2 ≫= λ ns2,
                store_options parser ns2 l).
    change (store_options parser ns (o2 :: o1 :: l))
      with (store_option parser ns o2 ≫= λ ns1,
              store_option parser ns1 o1 ≫= λ ns2,
                store_options parser ns2 l).
    pose proof (store_option_swap ns o2 o1 Hne) as Hswap.
    destruct (store_option parser ns o1) as [n1|];
      destruct (store_option parser ns o2) as [n2|]; simpl in *.
    + destruct (store_option parser n1 o2) as [m1|];
        destruct (store_option parser n2 o1) as [m2|]; simpl in *;
        by simplify_eq.
    + by destruct (store_option parser n1 o2).
    + by destruct (store_option parser n2 o1).
    + done.
  - rewrite IH1 by done. apply IH2. by rewrite <- Hp1.
Qed.

(** X18: when no flag is supplied twice, the order of the options on the
    command line does not matter: two command lines that are permutations
    of each other parse to the same namespace, or both fail. *)
Theorem parse_args_order_irrelevant (argv argv' : list (string * ArgValue)) :
  argv ≡ₚ argv' → NoDup argv.*1 → parse_args argv = parse_args argv'.
Proof. apply store_options_permutation. Qed.

Lemma parse_args_order_irrelevant_witness :
  [("--nwords", VInt 3); ("--mindf", VFloat 2)]
    ≡ₚ [("--mindf", VFloat 2); ("--nwords", VInt 3)]
  ∧ parse_args [("--nwords", VInt 3); ("--mindf", VFloat 2)]
    = parse_args [("--mindf", VFloat 2); ("--nwords", VInt 3)].
Proof.
  assert ([("--nwords", VInt 3); ("--mindf", VFloat 2)]
            ≡ₚ [("--mindf", VFloat 2); ("--nwords", VInt 3)]) as Hperm
    by apply Permutation_swap.
  split; [exact Hperm|].
  apply (parse_args_order_irrelevant _ _ Hperm).
  simpl. apply NoDup_cons. split.
  - apply not_elem_of_cons. split; [discriminate|apply not_elem_of_nil].
  - apply NoDup_singleton.
Defined.

(** ** From the command line to the rows *)

Section default_nwords.
Context {A : Type} (R : relation A) `{!∀ x y, Decision (R x y)}.

(** X20: when [--nwords] is not supplied, the stage is constructed with
    [nwords = 10], and for every document whose array is no longer than the
    vocabulary it returns min(10, size of the array) words and as many
    scores. *)
Theorem default_nwords_ten_words (argv : list (string * ArgValue))
    (ns : gmap string ArgValue) (t : TopKWords) (vocab : list string)
    (x : list A) :
  parse_args argv = Some ns → "--nwords" ∉ argv.*1 →
  make_topkwords ns = Some t → length x ≤ length vocab →
  nwords t = 10%Z
  ∧ ∃ scores words,
      getTopKWords R vocab x (nwords t) = Some (scores, words)
      ∧ length scores = 10 `min` length x
      ∧ length words = 10 `min` length x.
Proof.
  intros Hrun Hno Hmake Hlen.
  assert (nwords t = 10%Z) as Hten.
  { unfold make_topkwords in Hmake.
    rewrite (parse_args_default argv ns "nwords" Hrun Hno) in Hmake.
    change (defaults parser !! "nwords") with (Some (VInt 10)) in Hmake.
    by injection Hmake as <-. }
  split; [done|]. rewrite Hten.
  destruct (getTopKWords_result R vocab x 10 Hlen) as (ws & Hres & Hf).
  exists (top_pairs R x 10).*2, ws. split; [done|].
  apply Forall2_length in Hf. rewrite <- Hf, top_indices_pairs.
  rewrite !length_fmap, top_pairs_length by lia. split; lia.
Qed.
End default_nwords.

Lemma default_nwords_ten_words_witness :
  parse_args [("--filepath", VStr "data/RC_2015-01")]
    = Some (<["filepath" := VStr "data/RC_2015-01"]> (defaults parser))
  ∧ ∃ scores words,
      getTopKWords Z.le ["u"; "v"; "w"] [5; 9; 1]%Z 10 = Some (scores, words)
      ∧ length scores = 10 `min` 3 ∧ length words = 10 `min` 3.
Proof.
  assert (parse_args [("--filepath", VStr "data/RC_2015-01")]
          = Some (<["filepath" := VStr "data/RC_2015-01"]> (defaults parser)))
    as Hrun by reflexivity.
  split; [exact Hrun|].
  destruct (default_nwords_ten_words Z.le _ _
              (TopKWords_init None None (Some "tfidf") (Some "top_words") 10)
              ["u"; "v"; "w"] [5; 9; 1]%Z Hrun) as [_ Hres].
  - simpl. apply not_elem_of_cons. split; [discriminate|apply not_elem_of_nil].
  - reflexivity.
  - simpl. lia.
  - exact Hres.
Defined.
